(** * Just4Passion/toolkit: the state machines of StatusMachine.cpp and the
      scheduler of TaskScheduler.cpp, embedded in Rocq.

    The first part gives the definitions: each class of the C++ sources
    with its members, under the name it has there, the line numbers being
    those of [Cplusplus/DataStructure/StatusMachine.cpp] and
    [Cplusplus/DataStructure/TaskScheduler.cpp]; and the few notions the
    statements need (reachable states, interleavings of threads, heaps).
    The second part gives the properties, C1 to C10 among them. *)

From stdpp Require Import base decidable countable finite gmap list strings pretty sorting.

(* ===================================================================== *)
(** * StatusMachine.cpp                                                   *)
(* ===================================================================== *)

(** ** The enumerations (lines 36-49) *)

Inductive State := Idle | Running | Paused | Stopped.
Inductive Event := Start | Pause | Resume | Stop.

#[global] Instance State_eq_dec : EqDecision State.
Proof. solve_decision. Defined.
#[global] Instance Event_eq_dec : EqDecision Event.
Proof. solve_decision. Defined.

(** [static_cast<int>] of the enumerators, declared in this order. *)
Definition State_to_nat (s : State) : nat :=
  match s with Idle => 0 | Running => 1 | Paused => 2 | Stopped => 3 end.
Definition State_of_nat (n : nat) : option State :=
  match n with
  | 0 => Some Idle | 1 => Some Running | 2 => Some Paused | 3 => Some Stopped
  | _ => None
  end.
Definition Event_to_nat (e : Event) : nat :=
  match e with Start => 0 | Pause => 1 | Resume => 2 | Stop => 3 end.
Definition Event_of_nat (n : nat) : option Event :=
  match n with
  | 0 => Some Start | 1 => Some Pause | 2 => Some Resume | 3 => Some Stop
  | _ => None
  end.

#[global] Program Instance State_countable : Countable State :=
  inj_countable State_to_nat State_of_nat _.
Next Obligation. by intros []. Defined.
#[global] Program Instance Event_countable : Countable Event :=
  inj_countable Event_to_nat Event_of_nat _.
Next Obligation. by intros []. Defined.

(** [strState] (line 52), indexed by [static_cast<int>(state)]. *)
Definition strState : list string := ["Idle"; "Running"; "Paused"; "Stopped"].

Definition state_name (s : State) : string :=
  default "" (strState !! State_to_nat s).

(** ** The transition table (lines 57-63)

    [transitionRules] is a [std::map<std::tuple<State, Event>, State>] built
    from an initializer list.  That constructor inserts the listed pairs one
    after the other, and [insert] leaves the map as it is when the key is
    already there. *)

Abbreviation Key := (State * Event)%type.
Abbreviation TransitionTable := (gmap (State * Event) State).
Abbreviation TransitionRule := ((State * Event) * State)%type.

(** [std::map::insert(value_type)]. *)
Definition map_insert (rule : TransitionRule) (m : TransitionTable) : TransitionTable :=
  match m !! rule.1 with
  | Some _ => m
  | None => <[rule.1 := rule.2]> m
  end.

(** [std::map(std::initializer_list<value_type>)]. *)
Definition map_of_initializer_list (rules : list TransitionRule) : TransitionTable :=
  foldl (λ m rule, map_insert rule m) ∅ rules.

(** The five pairs of lines 58-62. *)
Definition transitionRules_init : list TransitionRule :=
  [ ((Idle, Start), Running);
    ((Running, Pause), Paused);
    ((Paused, Resume), Running);
    ((Running, Stop), Stopped);
    ((Paused, Stop), Stopped) ].

Definition transitionRules : TransitionTable :=
  map_of_initializer_list transitionRules_init.

(** Two rules for one key, to see what the constructor makes of them. *)
Definition conflicting_rules : list TransitionRule :=
  [ ((Idle, Start), Running);
    ((Idle, Start), Stopped) ].

(** The first pair of [rules] with key [k]. *)
Fixpoint first_rule (rules : list TransitionRule) (k : Key) : option State :=
  match rules with
  | [] => None
  | rule :: rest => if decide (rule.1 = k) then Some rule.2 else first_rule rest k
  end.

(** The states that transitions of a table lead to from [Idle], the state
    every constructor starts in. *)
Inductive reachable_on (table : TransitionTable) : State → Prop :=
  | reachable_initial : reachable_on table Idle
  | reachable_step s event s' :
      reachable_on table s → table !! (s, event) = Some s' → reachable_on table s'.

(** ** SyncStateMachine (lines 66-105)

    The mutex makes every member function one critical section, so a call
    is a function from the machine before it to the machine after it.  What
    the call writes to [cout] is returned next to the result. *)

Module SyncStateMachine.

Record t := { currentState : State }.

(** The constructor (line 72). *)
Definition new : t := {| currentState := Idle |}.

Section WithTable.
Variable table : TransitionTable.

(** [handleEvent] (lines 78-97) over the table it consults. *)
Definition handleEvent_on (event : Event) (m : t) : bool * t * list string :=
  let key := (currentState m, event) in
  match table !! key with
  | Some next =>
      let line := ("Come in next status [" ++ state_name (currentState m)
                   ++ "] -> [" ++ state_name next ++ "]")%string in
      (true, {| currentState := next |}, [line])
  | None => (false, m, [])
  end.

(** A caller applying events one after the other, as [worker] (lines
    121-127) does: the results in call order, the machine at the end and
    everything printed.  Calls of several threads on one machine are
    critical sections of the same mutex, so they too happen one after
    the other, in the order in which the lock is handed out. *)
Fixpoint run_on (events : list Event) (m : t) : list bool * t * list string :=
  match events with
  | [] => ([], m, [])
  | event :: rest =>
      let '(ok, m1, out1) := handleEvent_on event m in
      let '(oks, m2, out2) := run_on rest m1 in
      (ok :: oks, m2, out1 ++ out2)
  end.

(** *** Several threads on one machine

    A thread calls [handleEvent] for the events of [todo] in turn;
    [results] are the values returned so far. *)
Record Thread := { todo : list Event; results : list bool }.

(** The machine, the threads using it, and what has been printed. *)
Definition Config : Type := t * list Thread * list string.

(** Thread [i] gets the mutex and makes its next call; a pick of no
    thread, or of a thread that has finished, changes nothing. *)
Definition sched_step_on (i : nat) (c : Config) : Config :=
  let '(m, threads, out) := c in
  match threads !! i with
  | Some th =>
      match todo th with
      | [] => c
      | event :: rest =>
          let '(ok, m', out') := handleEvent_on event m in
          (m', <[i := {| todo := rest; results := results th ++ [ok] |}]> threads,
           out ++ out')
      end
  | None => c
  end.

Definition exec_on (order : list nat) (c : Config) : Config :=
  foldl (λ c i, sched_step_on i c) c order.
End WithTable.

(** [handleEvent] reads the global [transitionRules]. *)
Definition handleEvent : Event → t → bool * t * list string :=
  handleEvent_on transitionRules.
Definition run : list Event → t → list bool * t * list string :=
  run_on transitionRules.
Definition sched_step := sched_step_on transitionRules.
Definition exec := exec_on transitionRules.

(** Threads that have not started yet, one per list of events. *)
Definition spawn (programs : list (list Event)) : list Thread :=
  (λ events, {| todo := events; results := [] |}) <$> programs.

(** [getCurrentState] (lines 100-103). *)
Definition getCurrentState (m : t) : State := currentState m.

(** [worker] (lines 121-127): the calls it makes, and what they do when no
    other thread uses the machine. *)
Definition worker_calls : list Event := [Start; Pause; Resume; Stop].

Definition worker (m : t) : list bool * t * list string :=
  run worker_calls m.

(** [main] (lines 188-202): two threads run [worker] on one new machine and
    are joined, then the state is printed as a number.  [order] is the
    order in which the calls of the two threads get the mutex; [None] when
    it does not let both threads finish. *)
Definition main (order : list nat) : option (list string) :=
  let '(sm, threads, out) :=
    exec order (new, spawn [worker_calls; worker_calls], ["Hello World"]) in
  if bool_decide (Forall (λ th, todo th = []) threads)
  then Some (out ++ [("Final State: " ++ pretty (State_to_nat (getCurrentState sm)))%string])
  else None.

(** What holds of a thread running [worker] when the machine is in state
    [s]: once its Start has been called the machine has left [Idle], and
    once its Stop has been called the machine is in [Stopped]. *)
Definition worker_inv (s : State) (th : Thread) : Prop :=
  todo th = worker_calls ∨
  (s ≠ Idle ∧ todo th ∈ [[Pause; Resume; Stop]; [Resume; Stop]; [Stop]]) ∨
  (s = Stopped ∧ todo th = []).

End SyncStateMachine.

(** ** LockFreeStateMachine (lines 132-153)

    [currentState] is a [std::atomic<State>]: [load] and
    [compare_exchange_weak] are the atomic steps, and other threads may run
    between them.  A weak compare-exchange may fail although the cell holds
    the expected value; whether an attempt does so is not decided by the
    program, so it is an input of the model. *)

Module LockFreeStateMachine.

Record t := { currentState : State }.

(** The constructor (line 136). *)
Definition new : t := {| currentState := Idle |}.

(** [currentState.load()]. *)
Definition load (m : t) : State := currentState m.

(** [currentState.compare_exchange_weak(expected, desired)]: the result,
    the value left in [expected], and the cell.  [spurious] says that this
    attempt fails spuriously. *)
Definition compare_exchange_weak (spurious : bool) (expected desired : State) (m : t)
  : bool * State * t :=
  if bool_decide (currentState m = expected) && negb spurious
  then (true, expected, {| currentState := desired |})
  else (false, currentState m, m).

(** [getCurrentState] (lines 150-152). *)
Definition getCurrentState (m : t) : State := load m.

Section WithTable.
Variable table : TransitionTable.

(** [handleEvent] (lines 138-148) run by one thread with no other thread
    touching the cell.  [weak] lists, for the compare-exchange attempts
    to come, whether each fails spuriously; the unused rest is returned.
    [None]: the list ended and the loop is still going round. *)
Fixpoint handleEvent_on (weak : list bool) (event : Event) (m : t)
  : option (bool * t * list bool) :=
  let expected := load m in
  let key := (expected, event) in
  match table !! key with
  | None => Some (false, m, weak)
  | Some desired =>
      match weak with
      | [] => None
      | spurious :: weak' =>
          let '(swapped, _, m') := compare_exchange_weak spurious expected desired m in
          if swapped then Some (true, m', weak')
          else handleEvent_on weak' event m'
      end
  end.

(** *** The same code, one atomic step at a time

    A thread inside [handleEvent] is either about to [load] (line 141)
    or about to compare-exchange (line 146) with the [expected] and
    [desired] it has computed. *)
Inductive Pc := AtLoad | AtCas (expected desired : State).

(** A thread calls [handleEvent] for the events of [todo] in turn, as
    [worker] does; [results] are the values returned so far. *)
Record Thread := { todo : list Event; pc : Pc; results : list bool }.

Definition thread_step_on (spurious : bool) (th : Thread) (m : t) : option (Thread * t) :=
  match todo th with
  | [] => None
  | event :: rest =>
      match pc th with
      | AtLoad =>
          let expected := load m in
          match table !! (expected, event) with
          | None =>
              Some ({| todo := rest; pc := AtLoad; results := results th ++ [false] |}, m)
          | Some desired =>
              Some ({| todo := todo th; pc := AtCas expected desired;
                       results := results th |}, m)
          end
      | AtCas expected desired =>
          let '(swapped, _, m') := compare_exchange_weak spurious expected desired m in
          if swapped
          then Some ({| todo := rest; pc := AtLoad; results := results th ++ [true] |}, m')
          else Some ({| todo := todo th; pc := AtLoad; results := results th |}, m')
      end
  end.

(** The shared cell and the threads using it. *)
Definition Config : Type := t * list Thread.

(** The scheduler lets thread [pick.1] take one step, with [pick.2]
    deciding a weak failure; a pick of no thread, or of a thread that has
    finished, changes nothing. *)
Definition sched_step_on (pick : nat * bool) (c : Config) : Config :=
  match c.2 !! pick.1 with
  | Some th =>
      match thread_step_on pick.2 th c.1 with
      | Some (th', m') => (m', <[pick.1 := th']> c.2)
      | None => c
      end
  | None => c
  end.

Definition exec_on (schedule : list (nat * bool)) (c : Config) : Config :=
  foldl (λ c pick, sched_step_on pick c) c schedule.

(** What holds of every thread at every moment: one that is about to
    compare-exchange holds a [desired] that the table gives for its
    [expected] and the event of the call. *)
Definition thread_ok_on (th : Thread) : Prop :=
  match pc th with
  | AtLoad => True
  | AtCas expected desired =>
      match todo th with
      | event :: _ => table !! (expected, event) = Some desired
      | [] => False
      end
  end.

Definition config_ok_on (c : Config) : Prop :=
  reachable_on table (currentState c.1) ∧ Forall thread_ok_on c.2.

(** One caller applying events one after the other, alone. *)
Fixpoint run_on (weak : list bool) (events : list Event) (m : t)
  : option (list bool * t * list bool) :=
  match events with
  | [] => Some ([], m, weak)
  | event :: rest =>
      '(ok, m1, weak1) ← handleEvent_on weak event m;
      '(oks, m2, weak2) ← run_on weak1 rest m1;
      Some (ok :: oks, m2, weak2)
  end.
End WithTable.

Definition handleEvent := handleEvent_on transitionRules.
Definition thread_step := thread_step_on transitionRules.
Definition sched_step := sched_step_on transitionRules.
Definition exec := exec_on transitionRules.
Definition run := run_on transitionRules.

(** Threads that have not started yet, one per list of events. *)
Definition spawn (programs : list (list Event)) : list Thread :=
  (λ events, {| todo := events; pc := AtLoad; results := [] |}) <$> programs.

(** The attempts of [weak] that do not fail spuriously. *)
Definition strong_attempts (weak : list bool) : nat :=
  length (filter (λ spurious, spurious = false) weak).

End LockFreeStateMachine.

(** What a configuration of the lock-free machine shows to its callers: the
    state in the cell and, thread by thread, the calls not yet returned from
    and the values returned so far.  That is a configuration of the locked
    machine. *)
Definition observed_thread (th : LockFreeStateMachine.Thread) : SyncStateMachine.Thread :=
  {| SyncStateMachine.todo := LockFreeStateMachine.todo th;
     SyncStateMachine.results := LockFreeStateMachine.results th |}.

Definition observed (c : LockFreeStateMachine.Config)
  : SyncStateMachine.t * list SyncStateMachine.Thread :=
  ({| SyncStateMachine.currentState := LockFreeStateMachine.currentState c.1 |},
   observed_thread <$> c.2).

(** No thread is between its [load] and its compare-exchange. *)
Definition quiescent (c : LockFreeStateMachine.Config) : Prop :=
  Forall (λ th, LockFreeStateMachine.pc th = LockFreeStateMachine.AtLoad) c.2.

(** ** Code of the user called by the classes

    The callback of [SyncStateMachine_Callback] and [Task::execute] are
    written by the user of the classes.  Such a call acts on whatever the
    code has captured or refers to, the [World] here, and ends in one of
    two ways: it returns, or it throws; either way it leaves the world as
    it has made it.  Two things are taken of such code: that a call of it
    ends; and that it keeps its hands off the object that calls it.  (A
    callback that calls [handleEvent] of the same machine locks a mutex
    that its own thread holds, which has no defined behaviour; one that
    calls [setCallback] of it, and a task that submits to the scheduler
    that runs it, are not covered here.) *)
Inductive Outcome (World : Type) :=
  | Finished (w : World)
  | Raised (what : string) (w : World).
Arguments Finished {World} w.
Arguments Raised {World} what w.

(** How a call of a member function ends: it returns a value; or it ends
    in an exception that a call of the standard library it makes itself
    throws ([Throws]); or in an exception thrown by the user's code it has
    called, which none of the member functions catches ([Escapes]). *)
Inductive Completion (A : Type) :=
  | Returns (a : A)
  | Throws (what : string)
  | Escapes (what : string).
Arguments Returns {A} a.
Arguments Throws {A} what.
Arguments Escapes {A} what.

(** ** SyncStateMachine_Callback (lines 155-186)

    The callback is a [std::function<void(State, Event, State)>]: it may be
    empty, and calling an empty one throws [std::bad_function_call]; one
    that is set is code of the user, which may throw. *)

Module SyncStateMachine_Callback.

Section WithWorld.
Context {World : Type}.

Definition TransitionCallback : Type := State → Event → State → World → Outcome World.

Record t := { currentState : State; onStateChanged : option TransitionCallback }.

(** The constructor (line 164): the [std::function] member starts empty. *)
Definition new : t := {| currentState := Idle; onStateChanged := None |}.

(** [setCallback] (lines 166-168); the argument may itself be empty. *)
Definition setCallback (callback : option TransitionCallback) (m : t) : t :=
  {| currentState := currentState m; onStateChanged := callback |}.

(** [std::function::operator bool]. *)
Definition has_target (f : option TransitionCallback) : bool :=
  match f with Some _ => true | None => false end.

(** [std::function::operator()]; [None] is [std::bad_function_call]. *)
Definition invoke (f : option TransitionCallback) (old : State) (event : Event)
    (new : State) (w : World) : option (Outcome World) :=
  match f with
  | Some callback => Some (callback old event new w)
  | None => None
  end.

Section WithTable.
Variable table : TransitionTable.

(** [handleEvent] (lines 171-184).  There is no [try] in it: an exception
    of the callback leaves [handleEvent] at line 179, after the assignment
    of line 177 and before the [return] of line 181. *)
Definition handleEvent_on (event : Event) (m : t) (w : World)
  : Completion bool * t * World :=
  let key := (currentState m, event) in
  match table !! key with
  | Some next =>
      let oldState := currentState m in
      let m := {| currentState := next; onStateChanged := onStateChanged m |} in
      if has_target (onStateChanged m)
      then match invoke (onStateChanged m) oldState event (currentState m) w with
           | Some (Finished w') => (Returns true, m, w')
           | Some (Raised what w') => (Escapes what, m, w')
           | None => (Throws "bad_function_call", m, w)
           end
      else (Returns true, m, w)
  | None => (Returns false, m, w)
  end.

(** A caller applying events one after the other; an exception ends
    the caller. *)
Fixpoint run_on (events : list Event) (m : t) (w : World)
  : list (Completion bool) * t * World :=
  match events with
  | [] => ([], m, w)
  | event :: rest =>
      let '(c, m1, w1) := handleEvent_on event m w in
      match c with
      | Returns _ =>
          let '(cs, m2, w2) := run_on rest m1 w1 in (c :: cs, m2, w2)
      | Throws _ | Escapes _ => ([c], m1, w1)
      end
  end.
End WithTable.

Definition handleEvent := handleEvent_on transitionRules.
Definition run := run_on transitionRules.
End WithWorld.

Arguments t : clear implicits.
Arguments TransitionCallback : clear implicits.

End SyncStateMachine_Callback.

(** ** The public members of the three classes *)

Module Interface.

Inductive Class :=
  | SyncStateMachine
  | LockFreeStateMachine
  | SyncStateMachine_Callback.

Inductive Member := handleEvent | getCurrentState | setCallback.

#[global] Instance Member_eq_dec : EqDecision Member.
Proof. solve_decision. Defined.

(** The member functions under [public:], in the order declared (lines
    71-103, 135-152 and 162-184), constructors apart. *)
Definition public_members (c : Class) : list Member :=
  match c with
  | SyncStateMachine => [handleEvent; getCurrentState]
  | LockFreeStateMachine => [handleEvent; getCurrentState]
  | SyncStateMachine_Callback => [setCallback; handleEvent]
  end.

End Interface.

(* ===================================================================== *)
(** * TaskScheduler.cpp                                                   *)
(* ===================================================================== *)

(** ** [std::priority_queue<T, std::vector<T>, Compare>]

    The adaptor keeps a vector [c] and calls [std::push_heap] and
    [std::pop_heap] on it.  Those two are library code: they are taken as
    parameters, with the contract stated in [HeapLaws] below.  A comparison
    may be undefined (the comparator of [PriorityStrategy] dereferences its
    arguments), so a comparator returns an [option]. *)

Module StdHeap.

Record HeapAlgorithms (T : Type) := {
  push_heap : list T → list T;
  pop_heap : list T → list T
}.
Arguments push_heap {T} _ _.
Arguments pop_heap {T} _ _.

Record priority_queue (T : Type) := { c : list T }.
Arguments c {T} _.

Section Adaptor.
Context {T : Type} (alg : HeapAlgorithms T).

Definition empty (q : priority_queue T) : bool :=
  match c q with [] => true | _ :: _ => false end.

(** [c.push_back(x); push_heap(c.begin(), c.end(), comp)]. *)
Definition push (x : T) (q : priority_queue T) : priority_queue T :=
  {| c := push_heap alg (c q ++ [x]) |}.

(** [c.front()]; there is none in an empty vector. *)
Definition top (q : priority_queue T) : option T := head (c q).

(** [pop_heap(c.begin(), c.end(), comp); c.pop_back()]. *)
Definition pop (q : priority_queue T) : priority_queue T :=
  {| c := removelast (pop_heap alg (c q)) |}.
End Adaptor.

Section Contract.
Context {T : Type} (comp : T → T → option bool).

(** A heap with respect to [comp]: no element is ordered after its
    parent, [comp(c[(i-1)/2], c[i])] is false for every [0 < i]. *)
Definition is_heap (l : list T) : Prop :=
  ∀ i parent child, 0 < i →
    l !! ((i - 1) `div` 2) = Some parent → l !! i = Some child →
    comp parent child = Some false.

(** Every comparison between elements of [l] is defined. *)
Definition comparable (l : list T) : Prop :=
  ∀ a b, a ∈ l → b ∈ l → is_Some (comp a b).

(** The contract of the two algorithms in the standard.  [push_heap] turns
    a heap followed by one more element into a heap of the same elements.
    [pop_heap] turns a heap into its first element, put last, after a heap
    of the others.  Nothing is said of a range that is no heap.  A range of
    one element is a heap whatever the element, and is left as it is by
    both: the standard allows them log N comparisons at most, which is
    none for one element. *)
Record HeapLaws (alg : HeapAlgorithms T) : Prop := {
  push_heap_heap : ∀ l x, is_heap l → comparable (l ++ [x]) →
    is_heap (push_heap alg (l ++ [x])) ∧ push_heap alg (l ++ [x]) ≡ₚ l ++ [x];
  push_heap_one : ∀ x, push_heap alg [x] = [x];
  pop_heap_heap : ∀ x l, is_heap (x :: l) → comparable (x :: l) →
    ∃ l', pop_heap alg (x :: l) = l' ++ [x] ∧ is_heap l' ∧ l' ≡ₚ l;
  pop_heap_one : ∀ x, pop_heap alg [x] = [x]
}.
End Contract.

(** More than the contract, and a property of an implementation:
    [pop_heap] moves the first element to the last place without looking at
    it, so that with another first element the others end up as they would
    have.  [PriorityStrategy::getNextTask] needs this of the library: by the
    time it calls [pop] (line 135) it has moved the pointer out of the
    first element (line 134), and the range, with a null pointer in front,
    is no heap for a comparator that dereferences. *)
Definition pop_heap_spares_front {T : Type} (alg : HeapAlgorithms T) : Prop :=
  ∀ x0 x l l', pop_heap alg (x0 :: l) = l' ++ [x0] → pop_heap alg (x :: l) = l' ++ [x].

End StdHeap.

Module TaskScheduler.

Section WithWorld.
Context {World : Type}.

(** ** class Task (lines 52-57)

    An object of a class derived from [Task] is its two virtual
    functions: what [execute()] does to the world around it and how it
    ends, and the value of [getPriority()].  The latter is taken to return,
    and to return the same value at every call, as those of the two
    classes of the file do. *)
Record Task := { execute : World → Outcome World; getPriority : Z }.

(** [std::unique_ptr<Task>]; [None] is [nullptr]. *)
Definition TaskPtr : Type := option Task.

(** ** class SchedulingStrategy (lines 88-93) *)
Class SchedulingStrategy (Strategy : Type) := {
  addTask : TaskPtr → Strategy → Strategy;
  getNextTask : Strategy → TaskPtr * Strategy
}.

(** ** class FifoStrategy (lines 96-110) *)
Record FifoStrategy := { queue_ : list TaskPtr }.

Definition FifoStrategy_new : FifoStrategy := {| queue_ := [] |}.

Definition FifoStrategy_addTask (task : TaskPtr) (s : FifoStrategy) : FifoStrategy :=
  {| queue_ := queue_ s ++ [task] |}.

Definition FifoStrategy_getNextTask (s : FifoStrategy) : TaskPtr * FifoStrategy :=
  match queue_ s with
  | [] => (None, s)
  | task :: rest => (task, {| queue_ := rest |})
  end.

#[global] Instance FifoStrategy_strategy : SchedulingStrategy FifoStrategy :=
  {| addTask := FifoStrategy_addTask; getNextTask := FifoStrategy_getNextTask |}.

(** ** class PriorityStrategy (lines 115-138) *)

(** [TaskComparator] (lines 116-122); dereferencing a null pointer is
    undefined. *)
Definition TaskComparator (a b : TaskPtr) : option bool :=
  match a, b with
  | Some a, Some b => Some (bool_decide (getPriority a > getPriority b)%Z)
  | _, _ => None
  end.

Record PriorityStrategy := { pq_ : StdHeap.priority_queue TaskPtr }.

Definition PriorityStrategy_new : PriorityStrategy :=
  {| pq_ := {| StdHeap.c := [] |} |}.

Section WithHeap.
Variable alg : StdHeap.HeapAlgorithms TaskPtr.

Definition PriorityStrategy_addTask (task : TaskPtr) (s : PriorityStrategy)
  : PriorityStrategy :=
  {| pq_ := StdHeap.push alg task (pq_ s) |}.

(** Line 134 moves the pointer out of the top of the queue, which
    leaves a null pointer there, and line 135 pops that. *)
Definition PriorityStrategy_getNextTask (s : PriorityStrategy)
  : TaskPtr * PriorityStrategy :=
  if StdHeap.empty (pq_ s) then (None, s)
  else
    let task := default None (StdHeap.top (pq_ s)) in
    let moved_from := {| StdHeap.c := <[0 := None]> (StdHeap.c (pq_ s)) |} in
    (task, {| pq_ := StdHeap.pop alg moved_from |}).

Definition PriorityStrategy_strategy : SchedulingStrategy PriorityStrategy :=
  {| addTask := PriorityStrategy_addTask;
     getNextTask := PriorityStrategy_getNextTask |}.
End WithHeap.

(** ** class Scheduler (lines 142-157) *)
Record Scheduler (Strategy : Type) := { strategy_ : Strategy }.
Arguments strategy_ {Strategy} _.

Section WithStrategy.
Context {Strategy : Type} {strategy : SchedulingStrategy Strategy}.

Definition submit (task : TaskPtr) (sch : Scheduler Strategy) : Scheduler Strategy :=
  {| strategy_ := addTask task (strategy_ sch) |}.

(** [run] (lines 152-156).  The loop goes on for as long as the
    strategy hands out non-null pointers; [fuel] bounds the number of
    calls of [getNextTask], [None] meaning that it did not suffice.
    There is no [try] in the loop: an exception of [execute()] leaves
    [run], the task having been taken out of the strategy and the others
    being where they were.  Next to the scheduler and the world at the end
    and the way [run] ends, the tasks whose [execute()] was called are
    returned in the order of the calls. *)
Fixpoint run (fuel : nat) (sch : Scheduler Strategy) (w : World)
  : option (list Task * Scheduler Strategy * World * Completion ()) :=
  match fuel with
  | 0 => None
  | S fuel' =>
      match getNextTask (strategy_ sch) with
      | (Some task, s') =>
          match execute task w with
          | Finished w' =>
              '(executed, sch', w'', c) ← run fuel' {| strategy_ := s' |} w';
              Some (task :: executed, sch', w'', c)
          | Raised what w' => Some ([task], {| strategy_ := s' |}, w', Escapes what)
          end
      | (None, s') => Some ([], {| strategy_ := s' |}, w, Returns ())
      end
  end.
End WithStrategy.

(** The states of a [PriorityStrategy] that [addTask] of non-null
    pointers and [getNextTask] lead to. *)
Inductive PriorityStrategy_built (alg : StdHeap.HeapAlgorithms TaskPtr)
  : PriorityStrategy → Prop :=
  | built_new : PriorityStrategy_built alg PriorityStrategy_new
  | built_addTask task s :
      PriorityStrategy_built alg s →
      PriorityStrategy_built alg (PriorityStrategy_addTask alg (Some task) s)
  | built_getNextTask s :
      PriorityStrategy_built alg s →
      PriorityStrategy_built alg (PriorityStrategy_getNextTask alg s).2.

(** What holds of the vector of a [PriorityStrategy] so built: it is a
    heap for [TaskComparator] and holds no null pointer. *)
Definition PriorityStrategy_wf (s : PriorityStrategy) : Prop :=
  StdHeap.is_heap TaskComparator (StdHeap.c (pq_ s)) ∧
  Forall is_Some (StdHeap.c (pq_ s)).

(** A lawful pair of heap algorithms: the vector is kept in ascending
    order of priority, which is a heap for [TaskComparator].  A null
    pointer counts as priority 0 here; the laws say nothing about it. *)
Definition sort_key (p : TaskPtr) : Z :=
  match p with Some task => getPriority task | None => 0%Z end.

Definition key_le (a b : TaskPtr) : Prop := (sort_key a ≤ sort_key b)%Z.

#[global] Instance key_le_dec a b : Decision (key_le a b).
Proof. unfold key_le. apply _. Defined.

Definition sorted_heap : StdHeap.HeapAlgorithms TaskPtr :=
  {| StdHeap.push_heap := merge_sort key_le;
     StdHeap.pop_heap := λ l,
       match l with
       | [] => []
       | x :: rest => merge_sort key_le rest ++ [x]
       end |}.
End WithWorld.

Arguments Task : clear implicits.
Arguments TaskPtr : clear implicits.
Arguments FifoStrategy : clear implicits.
Arguments PriorityStrategy : clear implicits.
Arguments strategy_ {Strategy} _.

(** ** The two task classes of the file; they write to [std::cout], so
    their world is the lines written. *)

(** [PrintTask] (lines 60-67); [getPriority] is inherited from [Task]. *)
Definition PrintTask (message_ : string) : Task (list string) :=
  {| execute := λ out, Finished (out ++ [("Executing: " ++ message_)%string]);
     getPriority := 0 |}.

(** [PriorityTask] (lines 70-82). *)
Definition PriorityTask (message_ : string) (priority_ : Z) : Task (list string) :=
  {| execute := λ out,
       Finished (out ++ [("[P" ++ pretty priority_ ++ "]" ++ message_)%string]);
     getPriority := priority_ |}.

(** [main] (lines 159-187): what the two demonstrations print. *)
Definition main_fifo (fuel : nat) : option (list string) :=
  let scheduler := {| strategy_ := FifoStrategy_new |} in
  let scheduler := submit (Some (PrintTask "First")) scheduler in
  let scheduler := submit (Some (PrintTask "Second")) scheduler in
  let scheduler := submit (Some (PrintTask "Third")) scheduler in
  '(_, _, out, _) ← run fuel scheduler ["FIFO Schedule:"];
  Some out.

Definition main_priority (alg : StdHeap.HeapAlgorithms (TaskPtr (list string)))
    (fuel : nat) : option (list string) :=
  let strategy := PriorityStrategy_strategy alg in
  let scheduler := {| strategy_ := PriorityStrategy_new |} in
  let scheduler := submit (Some (PriorityTask "Low" 3)) scheduler in
  let scheduler := submit (Some (PriorityTask "Urgent" 1)) scheduler in
  let scheduler := submit (Some (PriorityTask "Medium" 2)) scheduler in
  '(_, _, out, _) ← run fuel scheduler [""; "Priority Schedule:"];
  Some out.

(** The strategy of the second demonstration after its three [submit]s. *)
Definition demo_strategy (alg : StdHeap.HeapAlgorithms (TaskPtr (list string)))
  : PriorityStrategy (list string) :=
  PriorityStrategy_addTask alg (Some (PriorityTask "Medium" 2))
    (PriorityStrategy_addTask alg (Some (PriorityTask "Urgent" 1))
       (PriorityStrategy_addTask alg (Some (PriorityTask "Low" 3))
          PriorityStrategy_new)).

End TaskScheduler.



(* ===================================================================== *)
(** * Further notions, for the properties beyond C1 to C10                *)
(* ===================================================================== *)

(** The calls that returned true. *)
Definition successes (oks : list bool) : nat :=
  length (filter (λ ok, ok = true) oks).

(** How often [event] was called and accepted, given the events called and
    the values returned. *)
Definition accepted (event : Event) (events : list Event) (oks : list bool) : nat :=
  length (filter (λ call, call = (event, true)) (zip events oks)).

(** A call that returned, and returned true. *)
Definition returned_true (c : Completion bool) : bool :=
  match c with
  | Returns ok => ok
  | Throws _ | Escapes _ => false
  end.

(** A callback that keeps a record of what it is called with. *)
Definition record_transition
  : SyncStateMachine_Callback.TransitionCallback (list (State * Event * State)) :=
  λ old event new log, Finished (log ++ [(old, event, new)]).

(** A walk through a table: each step is a rule and starts where the step
    before it ended. *)
Inductive walk_on (table : TransitionTable)
  : State → list (State * Event * State) → State → Prop :=
  | walk_stay s : walk_on table s [] s
  | walk_step s event s' steps s'' :
      table !! (s, event) = Some s' →
      walk_on table s' steps s'' →
      walk_on table s ((s, event, s') :: steps) s''.

(** The threads of a configuration of the locked machine whose fourth call,
    which is Stop for a thread running [worker], returned true. *)
Definition stop_accepted (th : SyncStateMachine.Thread) : Prop :=
  SyncStateMachine.results th !! 3 = Some true.

Definition stops_accepted (threads : list SyncStateMachine.Thread) : nat :=
  length (filter stop_accepted threads).

(** The line [SyncStateMachine::handleEvent] prints for a transition (lines
    89-92). *)
Definition transition_line (step : State * Event * State) : string :=
  ("Come in next status [" ++ state_name step.1.1 ++ "] -> ["
     ++ state_name step.2 ++ "]")%string.

(** Calls of the two member functions of a strategy, in some order, with
    non-null tasks. *)
Inductive QueueCall (World : Type) :=
  | AddTask (task : TaskScheduler.Task World)
  | GetNextTask.
Arguments AddTask {World} task.
Arguments GetNextTask {World}.

(** The tasks the calls add, in order. *)
Definition tasks_added {World : Type} (calls : list (QueueCall World))
  : list (TaskScheduler.Task World) :=
  omap (λ call, match call with AddTask task => Some task | GetNextTask => None end) calls.

(** The calls made on a [FifoStrategy] one after the other: the tasks handed
    out, in order, and the strategy at the end. *)
Fixpoint fifo_calls {World : Type} (calls : list (QueueCall World))
    (s : TaskScheduler.FifoStrategy World)
  : list (TaskScheduler.Task World) * TaskScheduler.FifoStrategy World :=
  match calls with
  | [] => ([], s)
  | AddTask task :: calls => fifo_calls calls (TaskScheduler.addTask (Some task) s)
  | GetNextTask :: calls =>
      let '(p, s') := TaskScheduler.getNextTask s in
      let '(handed, s'') := fifo_calls calls s' in
      (match p with Some task => task :: handed | None => handed end, s'')
  end.

(** The same calls on a [PriorityStrategy]. *)
Fixpoint priority_calls {World : Type}
    (alg : StdHeap.HeapAlgorithms (TaskScheduler.TaskPtr World))
    (calls : list (QueueCall World)) (s : TaskScheduler.PriorityStrategy World)
  : list (TaskScheduler.Task World) * TaskScheduler.PriorityStrategy World :=
  match calls with
  | [] => ([], s)
  | AddTask task :: calls =>
      priority_calls alg calls (TaskScheduler.PriorityStrategy_addTask alg (Some task) s)
  | GetNextTask :: calls =>
      let '(p, s') := TaskScheduler.PriorityStrategy_getNextTask alg s in
      let '(handed, s'') := priority_calls alg calls s' in
      (match p with Some task => task :: handed | None => handed end, s'')
  end.

(** ** Further notions, for user code that throws *)

(** The world a call leaves. *)
Definition world_after {World : Type} (o : Outcome World) : World :=
  match o with
  | Finished w => w
  | Raised _ w => w
  end.

(** Tasks executed one after the other, as a loop without [try] does: the
    tasks whose [execute()] was called, those it was not called of, the
    world at the end, and how the loop ends; it ends with the first task
    that throws. *)
Fixpoint execute_in_order {World : Type} (tasks : list (TaskScheduler.Task World))
    (w : World)
  : list (TaskScheduler.Task World) * list (TaskScheduler.Task World) * World
    * Completion () :=
  match tasks with
  | [] => ([], [], w, Returns ())
  | task :: tasks =>
      match TaskScheduler.execute task w with
      | Finished w' =>
          let '(called, pending, w'', c) := execute_in_order tasks w' in
          (task :: called, pending, w'', c)
      | Raised what w' => ([task], tasks, w', Escapes what)
      end
  end.

(** A callback called with steps of a machine, one after the other: the
    world at the end. *)
Definition notify_along {World : Type}
    (f : SyncStateMachine_Callback.TransitionCallback World)
    (steps : list (State * Event * State)) (w : World) : World :=
  foldl (λ w step, world_after (f step.1.1 step.1.2 step.2 w)) w steps.

(** The calls that did not return because the callback threw. *)
Definition escaped {A : Type} (c : Completion A) : bool :=
  match c with
  | Escapes _ => true
  | Returns _ | Throws _ => false
  end.

(** Heap algorithms that keep to the contract and to nothing more: given a
    range with a null pointer in front, which no heap of two or more
    elements has, [pop_heap] gives up the others. *)
Definition strict_pop_heap {World : Type} (l : list (TaskScheduler.TaskPtr World))
  : list (TaskScheduler.TaskPtr World) :=
  match l with
  | [] => []
  | [x] => [x]
  | None :: _ :: _ => [None]
  | Some task :: rest => merge_sort TaskScheduler.key_le rest ++ [Some task]
  end.

Definition strict_heap {World : Type}
  : StdHeap.HeapAlgorithms (TaskScheduler.TaskPtr World) :=
  {| StdHeap.push_heap := merge_sort TaskScheduler.key_le;
     StdHeap.pop_heap := strict_pop_heap |}.
(* ===================================================================== *)
(** * Properties of the state machines                                    *)
(* ===================================================================== *)

(** ** The transition table *)

(** What [find] gives on the table of lines 57-63, key by key. *)
Lemma transitionRules_find (s : State) (e : Event) :
  transitionRules !! (s, e) =
    match s, e with
    | Idle, Start => Some Running
    | Running, Pause => Some Paused
    | Paused, Resume => Some Running
    | Running, Stop => Some Stopped
    | Paused, Stop => Some Stopped
    | _, _ => None
    end.
Proof. destruct s, e; reflexivity. Qed.

Lemma transitionRules_Stopped (e : Event) : transitionRules !! (Stopped, e) = None.
Proof. by rewrite transitionRules_find. Qed.

(** [insert] never changes the target of a key that is already there. *)
Lemma map_insert_lookup (rule : TransitionRule) (m : TransitionTable) (k : Key) :
  map_insert rule m !! k =
    match m !! k with
    | Some v => Some v
    | None => if decide (rule.1 = k) then Some rule.2 else None
    end.
Proof.
  unfold map_insert. destruct (m !! rule.1) as [v|] eqn:Hk.
  - destruct (m !! k) as [v'|] eqn:Hk'; [done|].
    case_decide; [congruence | done].
  - rewrite lookup_insert. case_decide as Heq.
    + subst k. by rewrite Hk.
    + by destruct (m !! k).
Qed.

Lemma foldl_map_insert_lookup (rules : list TransitionRule) (m : TransitionTable) (k : Key) :
  foldl (λ m rule, map_insert rule m) m rules !! k =
    match m !! k with
    | Some v => Some v
    | None => first_rule rules k
    end.
Proof.
  revert m. induction rules as [|rule rules IH]; intros m; simpl.
  - by destruct (m !! k).
  - rewrite IH, map_insert_lookup.
    destruct (m !! k) as [v|]; [done|]. by case_decide.
Qed.

Lemma map_of_initializer_list_lookup (rules : list TransitionRule) (k : Key) :
  map_of_initializer_list rules !! k = first_rule rules k.
Proof.
  unfold map_of_initializer_list. by rewrite foldl_map_insert_lookup, lookup_empty.
Qed.

(** ** SyncStateMachine *)

Section SyncFacts.
Import SyncStateMachine.
Variable table : TransitionTable.

Lemma sync_handleEvent_on_Some event m next :
  table !! (currentState m, event) = Some next →
  (handleEvent_on table event m).1 = (true, {| currentState := next |}).
Proof. unfold handleEvent_on. by intros ->. Qed.

Lemma sync_handleEvent_on_None event m :
  table !! (currentState m, event) = None →
  handleEvent_on table event m = (false, m, []).
Proof. unfold handleEvent_on. by intros ->. Qed.
End SyncFacts.

(** [worker] on a new machine: four transitions, ending in [Stopped]; and
    Resume on a new machine is refused. *)
Example worker_alone :
  SyncStateMachine.worker SyncStateMachine.new
  = ([true; true; true; true], {| SyncStateMachine.currentState := Stopped |},
     [ "Come in next status [Idle] -> [Running]";
       "Come in next status [Running] -> [Paused]";
       "Come in next status [Paused] -> [Running]";
       "Come in next status [Running] -> [Stopped]" ]).
Proof. reflexivity. Qed.

Example Resume_on_new_machine :
  SyncStateMachine.handleEvent Resume SyncStateMachine.new
  = (false, SyncStateMachine.new, []).
Proof. reflexivity. Qed.

(** C1.  [SyncStateMachine::handleEvent], for every machine and event: when
    the table has a rule for (currentState, event) the call returns true and
    the machine holds the rule's target (and one line was printed); when it
    has none the call returns false, nothing is printed, the machine is the
    one before the call and [getCurrentState] gives the same state as
    before. *)
Theorem C1_sync_handleEvent (m : SyncStateMachine.t) (event : Event) :
  match transitionRules !! (SyncStateMachine.currentState m, event) with
  | Some toState =>
      ∃ line, SyncStateMachine.handleEvent event m
              = (true, {| SyncStateMachine.currentState := toState |}, [line])
  | None =>
      SyncStateMachine.handleEvent event m = (false, m, []) ∧
      SyncStateMachine.getCurrentState (SyncStateMachine.handleEvent event m).1.2
        = SyncStateMachine.getCurrentState m
  end.
Proof.
  unfold SyncStateMachine.handleEvent, SyncStateMachine.handleEvent_on.
  destruct (transitionRules !! (SyncStateMachine.currentState m, event)) as [toState|].
  - eexists. reflexivity.
  - split; reflexivity.
Qed.

(** ** LockFreeStateMachine, one caller *)

Section LockFreeFacts.
Import LockFreeStateMachine.
Variable table : TransitionTable.

Lemma handleEvent_on_eq weak event m :
  handleEvent_on table weak event m =
    match table !! (load m, event) with
    | None => Some (false, m, weak)
    | Some desired =>
        match weak with
        | [] => None
        | spurious :: weak' =>
            let '(swapped, _, m') := compare_exchange_weak spurious (load m) desired m in
            if swapped then Some (true, m', weak')
            else handleEvent_on table weak' event m'
        end
    end.
Proof. by destruct weak. Qed.

(** With no rule the first [load] ends the call, whatever [weak] is. *)
Lemma lockfree_handleEvent_on_None weak event m :
  table !! (currentState m, event) = None →
  handleEvent_on table weak event m = Some (false, m, weak).
Proof. intros H. rewrite handleEvent_on_eq. unfold load. by rewrite H. Qed.

Lemma strong_attempts_cons spurious weak :
  strong_attempts (spurious :: weak) =
    if spurious then strong_attempts weak else S (strong_attempts weak).
Proof. unfold strong_attempts. by destruct spurious. Qed.

(** With a rule the loop goes round until an attempt does not fail
    spuriously, and that attempt commits the rule's target. *)
Lemma lockfree_handleEvent_on_Some weak event m desired :
  table !! (currentState m, event) = Some desired →
  1 ≤ strong_attempts weak →
  ∃ weak', handleEvent_on table weak event m
             = Some (true, {| currentState := desired |}, weak') ∧
           strong_attempts weak = S (strong_attempts weak').
Proof.
  intros Hrule. induction weak as [|spurious weak IH]; intros Hstrong.
  - unfold strong_attempts in Hstrong. simpl in Hstrong. lia.
  - rewrite handleEvent_on_eq. unfold load. rewrite Hrule.
    unfold compare_exchange_weak. rewrite bool_decide_eq_true_2 by done.
    rewrite strong_attempts_cons in *. destruct spurious; simpl.
    + apply IH, Hstrong.
    + eauto.
Qed.

(** A call that returns has done what the locked machine does. *)
Lemma lockfree_handleEvent_on_sound weak event m ok m' weak' :
  handleEvent_on table weak event m = Some (ok, m', weak') →
  (SyncStateMachine.handleEvent_on table event
     {| SyncStateMachine.currentState := currentState m |}).1
  = (ok, {| SyncStateMachine.currentState := currentState m' |}).
Proof.
  revert m. induction weak as [|spurious weak IH]; intros m;
    rewrite handleEvent_on_eq; unfold load, SyncStateMachine.handleEvent_on; simpl;
    destruct (table !! (currentState m, event)) as [desired|] eqn:Hrule;
    try (intros [= <- <- <-]; done); try done.
  unfold compare_exchange_weak. rewrite bool_decide_eq_true_2 by done.
  destruct spurious; simpl.
  - intros H. apply IH in H. revert H.
    unfold SyncStateMachine.handleEvent_on; simpl. by rewrite Hrule.
  - by intros [= <- <- <-].
Qed.

(** The whole run: enough attempts that do not fail spuriously, one for
    each event at most, and the caller gets through with the results and
    the final state of the locked machine. *)
Lemma lockfree_run_on_sync events : ∀ weak s,
  length events ≤ strong_attempts weak →
  ∃ oks final weak',
    run_on table weak events {| currentState := s |}
      = Some (oks, {| currentState := final |}, weak') ∧
    (SyncStateMachine.run_on table events {| SyncStateMachine.currentState := s |}).1
      = (oks, {| SyncStateMachine.currentState := final |}).
Proof.
  induction events as [|event events IH]; intros weak s Hlen; simpl.
  - by exists [], s, weak.
  - simpl in Hlen. unfold SyncStateMachine.handleEvent_on; simpl.
    destruct (table !! (s, event)) as [desired|] eqn:Hrule.
    + destruct (lockfree_handleEvent_on_Some weak event {| currentState := s |} desired)
        as (weak1 & -> & Hweak1); [done | lia |].
      destruct (IH weak1 desired) as (oks & final & weak' & Hrun & Hsync); [lia|].
      simpl. rewrite Hrun. simpl. exists (true :: oks), final, weak'. split; [done|].
      destruct (SyncStateMachine.run_on table events _) as [[oks' m'] out'].
      simpl in Hsync. by injection Hsync as -> ->.
    + rewrite lockfree_handleEvent_on_None by done. simpl.
      destruct (IH weak s) as (oks & final & weak' & Hrun & Hsync); [lia|].
      rewrite Hrun. simpl. exists (false :: oks), final, weak'. split; [done|].
      destruct (SyncStateMachine.run_on table events _) as [[oks' m'] out'].
      simpl in Hsync. by injection Hsync as -> ->.
Qed.
End LockFreeFacts.

(** C2.  One caller, any starting state, any sequence of events:
    [LockFreeStateMachine::handleEvent] returns the same booleans as
    [SyncStateMachine::handleEvent] and ends in the same state.  The loop of
    the lock-free machine gets through as soon as the weak compare-exchange
    stops failing spuriously; one attempt that does not is needed for each
    successful event, so as many as there are events suffice. *)
Theorem C2_lockfree_same_as_sync (s : State) (events : list Event) (weak : list bool) :
  length events ≤ LockFreeStateMachine.strong_attempts weak →
  ∃ oks final weak' out,
    LockFreeStateMachine.run weak events {| LockFreeStateMachine.currentState := s |}
      = Some (oks, {| LockFreeStateMachine.currentState := final |}, weak') ∧
    SyncStateMachine.run events {| SyncStateMachine.currentState := s |}
      = (oks, {| SyncStateMachine.currentState := final |}, out).
Proof.
  intros Hlen.
  destruct (lockfree_run_on_sync transitionRules events weak s Hlen)
    as (oks & final & weak' & Hrun & Hsync).
  exists oks, final, weak'.
  unfold SyncStateMachine.run.
  destruct (SyncStateMachine.run_on transitionRules events _) as [[oks' m'] out'].
  exists out'. split; [done|]. simpl in Hsync. by injection Hsync as -> ->.
Qed.

(** C2 at work: [worker]'s four events, with three of the seven attempts
    failing spuriously. *)
Lemma C2_lockfree_same_as_sync_witness :
  ∃ oks final weak' out,
    LockFreeStateMachine.run [true; false; false; true; true; false; false]
      [Start; Pause; Resume; Stop] {| LockFreeStateMachine.currentState := Idle |}
      = Some (oks, {| LockFreeStateMachine.currentState := final |}, weak') ∧
    SyncStateMachine.run [Start; Pause; Resume; Stop]
      {| SyncStateMachine.currentState := Idle |}
      = (oks, {| SyncStateMachine.currentState := final |}, out).
Proof.
  apply (C2_lockfree_same_as_sync Idle [Start; Pause; Resume; Stop]
           [true; false; false; true; true; false; false]).
  vm_compute. lia.
Defined.

(** ** Reachability *)

Section Reachability.
Variable table : TransitionTable.

Lemma sync_handleEvent_on_reachable event m :
  reachable_on table (SyncStateMachine.currentState m) →
  reachable_on table
    (SyncStateMachine.currentState (SyncStateMachine.handleEvent_on table event m).1.2).
Proof.
  intros Hm. unfold SyncStateMachine.handleEvent_on.
  destruct (table !! (SyncStateMachine.currentState m, event)) as [next|] eqn:Hrule;
    simpl; [|done].
  by eapply reachable_step.
Qed.

Lemma sync_run_on_reachable events : ∀ m,
  reachable_on table (SyncStateMachine.currentState m) →
  reachable_on table
    (SyncStateMachine.currentState (SyncStateMachine.run_on table events m).1.2).
Proof.
  induction events as [|event events IH]; intros m Hm; simpl; [done|].
  pose proof (sync_handleEvent_on_reachable event m Hm) as H1.
  destruct (SyncStateMachine.handleEvent_on table event m) as [[ok m1] out1].
  specialize (IH m1 H1).
  by destruct (SyncStateMachine.run_on table events m1) as [[oks m2] out2].
Qed.

Lemma sync_sched_step_on_reachable i c :
  reachable_on table (SyncStateMachine.currentState c.1.1) →
  reachable_on table
    (SyncStateMachine.currentState (SyncStateMachine.sched_step_on table i c).1.1).
Proof.
  destruct c as [[m threads] out]. simpl. intros Hm.
  destruct (threads !! i) as [th|]; [|done].
  destruct (SyncStateMachine.todo th) as [|event rest]; [done|].
  pose proof (sync_handleEvent_on_reachable event m Hm) as H1.
  by destruct (SyncStateMachine.handleEvent_on table event m) as [[ok m1] out1].
Qed.

Lemma sync_exec_on_reachable order : ∀ c,
  reachable_on table (SyncStateMachine.currentState c.1.1) →
  reachable_on table
    (SyncStateMachine.currentState (SyncStateMachine.exec_on table order c).1.1).
Proof.
  unfold SyncStateMachine.exec_on.
  induction order as [|i order IH]; intros c Hc; simpl; [done|].
  by apply IH, sync_sched_step_on_reachable.
Qed.

Lemma lockfree_thread_step_on_ok spurious th m th' m' :
  LockFreeStateMachine.thread_step_on table spurious th m = Some (th', m') →
  (LockFreeStateMachine.thread_ok_on table) th → reachable_on table (LockFreeStateMachine.currentState m) →
  (LockFreeStateMachine.thread_ok_on table) th' ∧ reachable_on table (LockFreeStateMachine.currentState m').
Proof.
  unfold LockFreeStateMachine.thread_step_on, LockFreeStateMachine.thread_ok_on.
  destruct th as [todo pc results]; simpl.
  destruct todo as [|event rest]; [done|].
  destruct pc as [|expected desired].
  - unfold LockFreeStateMachine.load.
    destruct (table !! (LockFreeStateMachine.currentState m, event)) as [desired|] eqn:Hrule;
      intros [= <- <-]; simpl; auto.
  - unfold LockFreeStateMachine.compare_exchange_weak.
    destruct (bool_decide_reflect (LockFreeStateMachine.currentState m = expected))
      as [Heq|Hne]; simpl.
    + destruct spurious; simpl; intros [= <- <-]; simpl; intros Hrule Hm; [done|].
      split; [done|]. subst expected. by eapply reachable_step.
    + by intros [= <- <-].
Qed.

Lemma lockfree_sched_step_on_ok pick c :
  LockFreeStateMachine.config_ok_on table c → LockFreeStateMachine.config_ok_on table (LockFreeStateMachine.sched_step_on table pick c).
Proof.
  destruct c as [m threads]. intros [Hm Hths]. unfold LockFreeStateMachine.sched_step_on.
  simpl. destruct (threads !! pick.1) as [th|] eqn:Hth; [|done].
  destruct (LockFreeStateMachine.thread_step_on table pick.2 th m) as [[th' m']|] eqn:Hstep;
    [|done].
  destruct (lockfree_thread_step_on_ok _ _ _ _ _ Hstep) as [Hth' Hm']; [|done|].
  - eapply Forall_lookup_1; eauto.
  - split; simpl; [done|]. by apply Forall_insert.
Qed.

Lemma lockfree_exec_on_ok schedule : ∀ c,
  LockFreeStateMachine.config_ok_on table c → LockFreeStateMachine.config_ok_on table (LockFreeStateMachine.exec_on table schedule c).
Proof.
  unfold LockFreeStateMachine.exec_on.
  induction schedule as [|pick schedule IH]; intros c Hc; simpl; [done|].
  by apply IH, lockfree_sched_step_on_ok.
Qed.

Lemma lockfree_spawn_ok programs :
  LockFreeStateMachine.config_ok_on table (LockFreeStateMachine.new, LockFreeStateMachine.spawn programs).
Proof.
  split; simpl; [constructor|].
  unfold LockFreeStateMachine.spawn. apply Forall_fmap, Forall_true. by intros events.
Qed.

Lemma lockfree_run_on_reachable events : ∀ weak m,
  reachable_on table (LockFreeStateMachine.currentState m) →
  match LockFreeStateMachine.run_on table weak events m with
  | Some (_, m', _) => reachable_on table (LockFreeStateMachine.currentState m')
  | None => True
  end.
Proof.
  induction events as [|event events IH]; intros weak m Hm; simpl; [done|].
  destruct (LockFreeStateMachine.handleEvent_on table weak event m)
    as [[[ok m1] weak1]|] eqn:Hcall; simpl; [|done].
  apply lockfree_handleEvent_on_sound in Hcall.
  pose proof (sync_handleEvent_on_reachable event
    {| SyncStateMachine.currentState := LockFreeStateMachine.currentState m |} Hm) as H1.
  rewrite Hcall in H1. simpl in H1.
  specialize (IH weak1 m1 H1).
  by destruct (LockFreeStateMachine.run_on table weak1 events m1) as [[[oks m2] weak2]|].
Qed.

Lemma callback_handleEvent_on_reachable {World} event
    (m : SyncStateMachine_Callback.t World) (w : World) :
  reachable_on table (SyncStateMachine_Callback.currentState m) →
  reachable_on table (SyncStateMachine_Callback.currentState
    (SyncStateMachine_Callback.handleEvent_on table event m w).1.2).
Proof.
  intros Hm. unfold SyncStateMachine_Callback.handleEvent_on.
  destruct (table !! (SyncStateMachine_Callback.currentState m, event))
    as [next|] eqn:Hrule; simpl; [|done].
  assert (reachable_on table next) by by eapply reachable_step.
  destruct (SyncStateMachine_Callback.onStateChanged m) as [f|]; simpl; [|done].
  by destruct (f _ _ _ _).
Qed.

Lemma callback_run_on_reachable {World} events :
  ∀ (m : SyncStateMachine_Callback.t World) (w : World),
  reachable_on table (SyncStateMachine_Callback.currentState m) →
  reachable_on table (SyncStateMachine_Callback.currentState
    (SyncStateMachine_Callback.run_on table events m w).1.2).
Proof.
  induction events as [|event events IH]; intros m w Hm; simpl; [done|].
  pose proof (callback_handleEvent_on_reachable event m w Hm) as H1.
  destruct (SyncStateMachine_Callback.handleEvent_on table event m w) as [[c m1] w1].
  destruct c as [ok|what|what]; [|done..].
  specialize (IH m1 w1 H1).
  by destruct (SyncStateMachine_Callback.run_on table events m1 w1) as [[cs m2] w2].
Qed.
End Reachability.

(** C3.  Whatever the table, the state of a machine is always one that
    transitions of the table lead to from [Idle]: for [SyncStateMachine]
    after any calls of any threads in any order of the lock; for
    [LockFreeStateMachine] after any steps of any threads interleaved in any
    way, weak failures included, that is at every moment of every execution,
    and after any calls of one caller; for [SyncStateMachine_Callback] after
    any calls, with any callback or none.  With [table := transitionRules]
    this is the machine of the source. *)
Theorem C3_state_always_reachable (table : TransitionTable) :
  (∀ order programs,
     reachable_on table (SyncStateMachine.currentState
       (SyncStateMachine.exec_on table order
          (SyncStateMachine.new, SyncStateMachine.spawn programs, [])).1.1)) ∧
  (∀ events,
     reachable_on table (SyncStateMachine.currentState
       (SyncStateMachine.run_on table events SyncStateMachine.new).1.2)) ∧
  (∀ schedule programs,
     reachable_on table (LockFreeStateMachine.currentState
       (LockFreeStateMachine.exec_on table schedule
          (LockFreeStateMachine.new, LockFreeStateMachine.spawn programs)).1)) ∧
  (∀ weak events,
     match LockFreeStateMachine.run_on table weak events LockFreeStateMachine.new with
     | Some (_, m, _) => reachable_on table (LockFreeStateMachine.currentState m)
     | None => True
     end) ∧
  (∀ World (callback : option (SyncStateMachine_Callback.TransitionCallback World))
     events (w : World),
     reachable_on table (SyncStateMachine_Callback.currentState
       (SyncStateMachine_Callback.run_on table events
          (SyncStateMachine_Callback.setCallback callback SyncStateMachine_Callback.new)
          w).1.2)).
Proof.
  repeat split.
  - intros. apply sync_exec_on_reachable. constructor.
  - intros. apply sync_run_on_reachable. constructor.
  - intros. apply lockfree_exec_on_ok, lockfree_spawn_ok.
  - intros. apply lockfree_run_on_reachable. constructor.
  - intros. apply callback_run_on_reachable. constructor.
Qed.

(** ** The lock-free machine under any interleaving

    Every step of a thread of the lock-free machine either shows nothing to
    the callers, or is, as seen by them, one whole call of that thread on
    the locked machine: the [load] that finds no rule, and the
    compare-exchange that succeeds. *)

Section Linearizability.
Variable table : TransitionTable.

Lemma lockfree_sched_step_on_observed pick c out :
  Forall (LockFreeStateMachine.thread_ok_on table) c.2 →
  observed (LockFreeStateMachine.sched_step_on table pick c) = observed c ∨
  observed (LockFreeStateMachine.sched_step_on table pick c)
    = (SyncStateMachine.sched_step_on table pick.1 (observed c, out)).1.
Proof.
  destruct c as [m threads], pick as [i spurious]. simpl. intros Hok.
  unfold LockFreeStateMachine.sched_step_on, observed. simpl.
  rewrite list_lookup_fmap.
  destruct (threads !! i) as [th|] eqn:Hth; simpl; [|by left].
  pose proof (Forall_lookup_1 _ _ _ _ Hok Hth) as Hthok.
  assert (∀ th', observed_thread th' = observed_thread th →
            observed_thread <$> <[i:=th']> threads = observed_thread <$> threads) as Hsame.
  { intros th' Heq. rewrite list_fmap_insert, Heq.
    apply list_insert_id. by rewrite list_lookup_fmap, Hth. }
  unfold LockFreeStateMachine.thread_step_on, LockFreeStateMachine.thread_ok_on in *.
  destruct th as [todo pc results]. simpl in *.
  destruct todo as [|event rest]; [by left|].
  unfold SyncStateMachine.handleEvent_on, LockFreeStateMachine.load. simpl.
  destruct pc as [|expected desired].
  - destruct (table !! (LockFreeStateMachine.currentState m, event)) as [desired|]; simpl.
    + left. by rewrite Hsame.
    + right. by rewrite list_fmap_insert.
  - unfold LockFreeStateMachine.compare_exchange_weak.
    destruct (bool_decide_reflect (LockFreeStateMachine.currentState m = expected))
      as [Heq|Hne]; simpl.
    + destruct spurious; simpl.
      * left. by rewrite Hsame.
      * right. rewrite Heq, Hthok. simpl. by rewrite list_fmap_insert.
    + left. by rewrite Hsame.
Qed.

Lemma sync_sched_step_on_out i c out1 out2 :
  (SyncStateMachine.sched_step_on table i (c, out1)).1
  = (SyncStateMachine.sched_step_on table i (c, out2)).1.
Proof.
  destruct c as [m threads]. simpl.
  destruct (threads !! i) as [th|]; [|done].
  destruct (SyncStateMachine.todo th); [done|].
  by destruct (SyncStateMachine.handleEvent_on table e m) as [[ok m'] out'].
Qed.

Lemma sync_exec_on_cons i order c :
  SyncStateMachine.exec_on table (i :: order) c
  = SyncStateMachine.exec_on table order (SyncStateMachine.sched_step_on table i c).
Proof. reflexivity. Qed.

Lemma lockfree_exec_on_cons pick schedule c :
  LockFreeStateMachine.exec_on table (pick :: schedule) c
  = LockFreeStateMachine.exec_on table schedule
      (LockFreeStateMachine.sched_step_on table pick c).
Proof. reflexivity. Qed.

Lemma sync_exec_on_out order : ∀ c out1 out2,
  (SyncStateMachine.exec_on table order (c, out1)).1
  = (SyncStateMachine.exec_on table order (c, out2)).1.
Proof.
  induction order as [|i order IH]; intros c out1 out2; [done|].
  rewrite !sync_exec_on_cons.
  pose proof (sync_sched_step_on_out i c out1 out2) as Hstep.
  destruct (SyncStateMachine.sched_step_on table i (c, out1)) as [c1 o1].
  destruct (SyncStateMachine.sched_step_on table i (c, out2)) as [c2 o2].
  simpl in Hstep. subst c2. apply IH.
Qed.

(** Every execution of the lock-free machine shows what some order of whole
    calls on the locked machine gives. *)
Lemma lockfree_exec_on_linearizable schedule : ∀ c out,
  LockFreeStateMachine.config_ok_on table c →
  ∃ order,
    (SyncStateMachine.exec_on table order (observed c, out)).1
    = observed (LockFreeStateMachine.exec_on table schedule c).
Proof.
  induction schedule as [|pick schedule IH]; intros c out Hok.
  - by exists [].
  - pose proof (lockfree_sched_step_on_ok table pick c Hok) as Hok1.
    destruct (IH (LockFreeStateMachine.sched_step_on table pick c) out Hok1) as [order Horder].
    rewrite lockfree_exec_on_cons.
    destruct (lockfree_sched_step_on_observed pick c out (proj2 Hok)) as [Heq|Heq].
    + exists order. by rewrite <- Heq.
    + exists (pick.1 :: order). rewrite sync_exec_on_cons, <- Horder, Heq.
      destruct (SyncStateMachine.sched_step_on table pick.1 (observed c, out)) as [c1 out1].
      apply sync_exec_on_out.
Qed.

Lemma lockfree_sched_step_on_at i spurious m threads th :
  threads !! i = Some th →
  LockFreeStateMachine.sched_step_on table (i, spurious) (m, threads)
  = match LockFreeStateMachine.thread_step_on table spurious th m with
    | Some (th', m') => (m', <[i:=th']> threads)
    | None => (m, threads)
    end.
Proof. intros Hth. unfold LockFreeStateMachine.sched_step_on. simpl. by rewrite Hth. Qed.

(** One whole call on the locked machine is what the lock-free machine
    shows when the thread takes its steps with no other thread in between
    and no weak failure. *)
Lemma sync_sched_step_on_realised i c out :
  quiescent c →
  ∃ schedule,
    observed (LockFreeStateMachine.exec_on table schedule c)
    = (SyncStateMachine.sched_step_on table i (observed c, out)).1 ∧
    quiescent (LockFreeStateMachine.exec_on table schedule c).
Proof.
  destruct c as [m threads]. unfold quiescent. simpl. intros Hq.
  rewrite list_lookup_fmap.
  destruct (threads !! i) as [th|] eqn:Hth; simpl; [|by exists []].
  pose proof (Forall_lookup_1 _ _ _ _ Hq Hth) as Hpc.
  destruct th as [todo pc results]. simpl in *. subst pc.
  destruct todo as [|event rest]; [by exists []|].
  unfold SyncStateMachine.handleEvent_on. simpl.
  destruct (table !! (LockFreeStateMachine.currentState m, event)) as [desired|] eqn:Hrule.
  - exists [(i, false); (i, false)].
    assert (LockFreeStateMachine.exec_on table [(i, false); (i, false)] (m, threads)
            = ({| LockFreeStateMachine.currentState := desired |},
               <[i := {| LockFreeStateMachine.todo := rest;
                         LockFreeStateMachine.pc := LockFreeStateMachine.AtLoad;
                         LockFreeStateMachine.results := results ++ [true] |}]> threads))
      as ->.
    { rewrite lockfree_exec_on_cons, (lockfree_sched_step_on_at _ _ _ _ _ Hth).
      unfold LockFreeStateMachine.thread_step_on. simpl.
      unfold LockFreeStateMachine.load. rewrite Hrule.
      erewrite lockfree_sched_step_on_at
        by (apply list_lookup_insert_eq; by eapply lookup_lt_Some).
      unfold LockFreeStateMachine.thread_step_on, LockFreeStateMachine.compare_exchange_weak.
      simpl. rewrite bool_decide_eq_true_2 by done. simpl.
      by rewrite list_insert_insert_eq. }
    split.
    + unfold observed. simpl. by rewrite list_fmap_insert.
    + by apply Forall_insert.
  - exists [(i, false)].
    assert (LockFreeStateMachine.exec_on table [(i, false)] (m, threads)
            = (m, <[i := {| LockFreeStateMachine.todo := rest;
                            LockFreeStateMachine.pc := LockFreeStateMachine.AtLoad;
                            LockFreeStateMachine.results := results ++ [false] |}]> threads))
      as ->.
    { rewrite lockfree_exec_on_cons, (lockfree_sched_step_on_at _ _ _ _ _ Hth).
      unfold LockFreeStateMachine.thread_step_on. simpl.
      unfold LockFreeStateMachine.load. by rewrite Hrule. }
    split.
    + unfold observed. simpl. by rewrite list_fmap_insert.
    + by apply Forall_insert.
Qed.

Lemma lockfree_exec_on_app s1 s2 c :
  LockFreeStateMachine.exec_on table (s1 ++ s2) c
  = LockFreeStateMachine.exec_on table s2 (LockFreeStateMachine.exec_on table s1 c).
Proof. unfold LockFreeStateMachine.exec_on. apply foldl_app. Qed.

(** Every order of whole calls on the locked machine is shown by some
    execution of the lock-free machine. *)
Lemma sync_exec_on_realised order : ∀ c out,
  quiescent c →
  ∃ schedule,
    observed (LockFreeStateMachine.exec_on table schedule c)
    = (SyncStateMachine.exec_on table order (observed c, out)).1.
Proof.
  induction order as [|i order IH]; intros c out Hq.
  - by exists [].
  - destruct (sync_sched_step_on_realised i c out Hq) as (s1 & Hobs & Hq1).
    rewrite sync_exec_on_cons.
    destruct (SyncStateMachine.sched_step_on table i (observed c, out)) as [c1 out1] eqn:Hstep.
    simpl in Hobs.
    destruct (IH (LockFreeStateMachine.exec_on table s1 c) out1 Hq1) as (s2 & Hobs2).
    exists (s1 ++ s2). rewrite lockfree_exec_on_app, Hobs2. by rewrite Hobs.
Qed.
End Linearizability.

(** ** One caller, step by step

    The loop of [handleEvent] as one caller runs it is the sequence of the
    atomic steps of one thread: a [load], then compare-exchanges and
    [load]s in turn for as long as the attempts fail, the weak failures
    being those of [weak]. *)

Section OneThread.
Variable table : TransitionTable.
#[local] Arguments LockFreeStateMachine.exec_on : simpl never.

(** Let the thread picked first in the schedule take its step. *)
Ltac first_pick :=
  rewrite lockfree_exec_on_cons; erewrite lockfree_sched_step_on_at by reflexivity.

Lemma lockfree_handleEvent_on_exec weak : ∀ event m ok m' weak' rest returned,
  LockFreeStateMachine.handleEvent_on table weak event m = Some (ok, m', weak') →
  ∃ schedule,
    LockFreeStateMachine.exec_on table schedule
      (m, [ {| LockFreeStateMachine.todo := event :: rest;
               LockFreeStateMachine.pc := LockFreeStateMachine.AtLoad;
               LockFreeStateMachine.results := returned |} ])
    = (m', [ {| LockFreeStateMachine.todo := rest;
                LockFreeStateMachine.pc := LockFreeStateMachine.AtLoad;
                LockFreeStateMachine.results := returned ++ [ok] |} ]).
Proof.
  induction weak as [|spurious weak IH]; intros event m ok m' weak' rest returned;
    rewrite handleEvent_on_eq; unfold LockFreeStateMachine.load;
    destruct (table !! (LockFreeStateMachine.currentState m, event)) as [desired|] eqn:Hrule;
    try done.
  - intros [= <- <- <-]. exists [(0, false)].
    first_pick.
    unfold LockFreeStateMachine.thread_step_on, LockFreeStateMachine.load. simpl.
    by rewrite Hrule.
  - unfold LockFreeStateMachine.compare_exchange_weak.
    rewrite bool_decide_eq_true_2 by done. destruct spurious; simpl.
    + intros Hcall. destruct (IH _ _ _ _ _ rest returned Hcall) as [schedule Hexec].
      exists ((0, false) :: (0, true) :: schedule).
      first_pick.
      unfold LockFreeStateMachine.thread_step_on at 1, LockFreeStateMachine.load. simpl.
      rewrite Hrule. simpl.
      first_pick.
      unfold LockFreeStateMachine.thread_step_on at 1,
        LockFreeStateMachine.compare_exchange_weak. simpl.
      rewrite bool_decide_eq_true_2 by done. simpl. exact Hexec.
    + intros [= <- <- <-]. exists [(0, false); (0, false)].
      first_pick.
      unfold LockFreeStateMachine.thread_step_on at 1, LockFreeStateMachine.load. simpl.
      rewrite Hrule. simpl.
      first_pick.
      unfold LockFreeStateMachine.thread_step_on,
        LockFreeStateMachine.compare_exchange_weak. simpl.
      by rewrite bool_decide_eq_true_2 by done.
  - intros [= <- <- <-]. exists [(0, false)].
    first_pick.
    unfold LockFreeStateMachine.thread_step_on, LockFreeStateMachine.load. simpl.
    by rewrite Hrule.
Qed.
End OneThread.

(** X2.  Threads started on a new machine: the lock-free machine and the
    locked one show the same things.  Whatever the interleaving of the steps of the
    lock-free machine and whatever the weak failures, the state and the
    values returned are those of the locked machine for some order of the
    calls; and every order of the calls on the locked machine is matched by
    an execution of the lock-free machine. *)
Theorem lockfree_equivalent_to_sync (table : TransitionTable) (programs : list (list Event)) :
  (∀ schedule, ∃ order,
     (SyncStateMachine.exec_on table order
        (SyncStateMachine.new, SyncStateMachine.spawn programs, [])).1
     = observed (LockFreeStateMachine.exec_on table schedule
                   (LockFreeStateMachine.new, LockFreeStateMachine.spawn programs))) ∧
  (∀ order, ∃ schedule,
     observed (LockFreeStateMachine.exec_on table schedule
                 (LockFreeStateMachine.new, LockFreeStateMachine.spawn programs))
     = (SyncStateMachine.exec_on table order
          (SyncStateMachine.new, SyncStateMachine.spawn programs, [])).1).
Proof.
  assert (observed (LockFreeStateMachine.new, LockFreeStateMachine.spawn programs)
          = (SyncStateMachine.new, SyncStateMachine.spawn programs)) as Hinit.
  { unfold observed, LockFreeStateMachine.spawn, SyncStateMachine.spawn. simpl.
    f_equal. rewrite <- list_fmap_compose. by apply list_fmap_ext. }
  split.
  - intros schedule. rewrite <- Hinit.
    apply lockfree_exec_on_linearizable, lockfree_spawn_ok.
  - intros order. rewrite <- Hinit. apply sync_exec_on_realised.
    unfold quiescent, LockFreeStateMachine.spawn. simpl.
    apply Forall_fmap, Forall_true. by intros events.
Qed.

(** ** [main] of StatusMachine.cpp *)

Lemma handleEvent_keeps_going (s : State) (event : Event) :
  let s' := SyncStateMachine.currentState
              (SyncStateMachine.handleEvent event
                 {| SyncStateMachine.currentState := s |}).1.2 in
  (s ≠ Idle → s' ≠ Idle) ∧ (s = Stopped → s' = Stopped) ∧
  (event = Start → s' ≠ Idle) ∧ (event = Stop → s ≠ Idle → s' = Stopped).
Proof. destruct s, event; vm_compute; repeat split; congruence. Qed.

Lemma worker_inv_sched_step i c :
  Forall (SyncStateMachine.worker_inv (SyncStateMachine.currentState c.1.1)) c.1.2 →
  let c' := SyncStateMachine.sched_step i c in
  Forall (SyncStateMachine.worker_inv (SyncStateMachine.currentState c'.1.1)) c'.1.2.
Proof.
  destruct c as [[[s] threads] out]. simpl. intros Hinv.
  unfold SyncStateMachine.sched_step, SyncStateMachine.sched_step_on.
  destruct (threads !! i) as [th|] eqn:Hth; [|done].
  pose proof (Forall_lookup_1 _ _ _ _ Hinv Hth) as Hthinv.
  destruct (SyncStateMachine.todo th) as [|event rest] eqn:Htodo; [done|].
  pose proof (handleEvent_keeps_going s event) as (Hidle & Hstopped & Hstart & Hstop).
  unfold SyncStateMachine.handleEvent in *.
  destruct (SyncStateMachine.handleEvent_on transitionRules event _) as [[ok [s']] out'].
  simpl in *. apply Forall_insert.
  - eapply Forall_impl; [exact Hinv|]. intros th' [H|[[H1 H2]|[H1 H2]]].
    + by left.
    + right; left. auto.
    + right; right. auto.
  - unfold SyncStateMachine.worker_inv in *. simpl. rewrite Htodo in Hthinv.
    destruct Hthinv as [H|[[H1 H2]|[H1 H2]]]; [| |done].
    + injection H as -> <-. right; left. split; [auto|]. set_solver.
    + rewrite !elem_of_cons, elem_of_nil in H2.
      destruct H2 as [H2|[H2|[H2|[]]]]; injection H2 as -> <-.
      * right; left. split; [auto|]. set_solver.
      * right; left. split; [auto|]. set_solver.
      * right; right. auto.
Qed.

Lemma worker_inv_exec order : ∀ c,
  Forall (SyncStateMachine.worker_inv (SyncStateMachine.currentState c.1.1)) c.1.2 →
  let c' := SyncStateMachine.exec order c in
  Forall (SyncStateMachine.worker_inv (SyncStateMachine.currentState c'.1.1)) c'.1.2.
Proof.
  induction order as [|i order IH]; intros c Hinv; [done|].
  apply (IH (SyncStateMachine.sched_step i c)), worker_inv_sched_step, Hinv.
Qed.

Lemma sync_exec_on_length table order : ∀ c,
  length (SyncStateMachine.exec_on table order c).1.2 = length c.1.2.
Proof.
  induction order as [|i order IH]; intros c; [done|].
  rewrite sync_exec_on_cons, IH. destruct c as [[m threads] out]. simpl.
  destruct (threads !! i) as [th|]; [|done].
  destruct (SyncStateMachine.todo th); [done|].
  destruct (SyncStateMachine.handleEvent_on table e m) as [[ok m'] out'].
  simpl. by rewrite length_insert.
Qed.

(** X5.  Whatever the order in which the two threads get the mutex, once
    both have finished the machine is in [Stopped] and [main] ends with the line
    "Final State: 3"; and there are orders that let both finish. *)
Theorem main_prints_Stopped (order : list nat) :
  match SyncStateMachine.main order with
  | Some out => last out = Some "Final State: 3"
  | None => True
  end ∧
  SyncStateMachine.main [0; 1; 0; 1; 0; 1; 0; 1]
  = Some [ "Hello World";
           "Come in next status [Idle] -> [Running]";
           "Come in next status [Running] -> [Paused]";
           "Come in next status [Paused] -> [Running]";
           "Come in next status [Running] -> [Stopped]";
           "Final State: 3" ].
Proof.
  split; [|reflexivity].
  unfold SyncStateMachine.main.
  set (start := (SyncStateMachine.new,
     SyncStateMachine.spawn [SyncStateMachine.worker_calls; SyncStateMachine.worker_calls],
     ["Hello World"])).
  pose proof (worker_inv_exec order start) as Hinv.
  pose proof (sync_exec_on_length transitionRules order start) as Hlen.
  fold SyncStateMachine.exec in Hlen.
  destruct (SyncStateMachine.exec order start) as [[[s] threads] out].
  simpl in Hinv, Hlen.
  case_bool_decide as Hdone; [|done].
  destruct threads as [|th threads]; [done|].
  apply Forall_inv in Hdone.
  assert (Forall (SyncStateMachine.worker_inv s) (th :: threads)) as Hall.
  { apply Hinv. repeat constructor. }
  apply Forall_inv in Hall as [H|[[_ H]|[-> _]]].
  - by rewrite Hdone in H.
  - rewrite Hdone, !elem_of_cons, elem_of_nil in H. by destruct H as [?|[?|[?|[]]]].
  - by rewrite last_snoc.
Qed.

(** ** The five rules *)

(** C4.  The table holds the five rules Idle→Running on Start,
    Running→Paused on Pause, Paused→Running on Resume, Running→Stopped on
    Stop and Paused→Stopped on Stop, and no other; for every other pair of
    state and event, [handleEvent] of each of the three classes returns
    false and leaves the machine as it was. *)
Theorem C4_five_rules :
  (∀ s e t,
     transitionRules !! (s, e) = Some t ↔
     ((s, e), t) ∈ [ ((Idle, Start), Running); ((Running, Pause), Paused);
                     ((Paused, Resume), Running); ((Running, Stop), Stopped);
                     ((Paused, Stop), Stopped) ]) ∧
  size transitionRules = 5 ∧
  (∀ s e,
     (s, e) ∉ [ (Idle, Start); (Running, Pause); (Paused, Resume);
                (Running, Stop); (Paused, Stop) ] →
     SyncStateMachine.handleEvent e {| SyncStateMachine.currentState := s |}
       = (false, {| SyncStateMachine.currentState := s |}, []) ∧
     (∀ weak,
        LockFreeStateMachine.handleEvent weak e {| LockFreeStateMachine.currentState := s |}
        = Some (false, {| LockFreeStateMachine.currentState := s |}, weak)) ∧
     (∀ World (callback : option (SyncStateMachine_Callback.TransitionCallback World)) w,
        SyncStateMachine_Callback.handleEvent e
          {| SyncStateMachine_Callback.currentState := s;
             SyncStateMachine_Callback.onStateChanged := callback |} w
        = (Returns false,
           {| SyncStateMachine_Callback.currentState := s;
              SyncStateMachine_Callback.onStateChanged := callback |}, w))).
Proof.
  split; [|split].
  - intros s e t. rewrite transitionRules_find. split.
    + destruct s, e; intros [= <-]; set_solver.
    + rewrite !elem_of_cons, elem_of_nil.
      intros [H|[H|[H|[H|[H|[]]]]]]; by injection H as -> -> ->.
  - reflexivity.
  - intros s e Hnot.
    assert (transitionRules !! (s, e) = None) as Hnone.
    { rewrite transitionRules_find. destruct s, e; try done; exfalso; apply Hnot; set_solver. }
    split; [|split].
    + by apply sync_handleEvent_on_None.
    + intros weak. by apply lockfree_handleEvent_on_None.
    + intros World callback w.
      unfold SyncStateMachine_Callback.handleEvent, SyncStateMachine_Callback.handleEvent_on.
      simpl. by rewrite Hnone.
Qed.

(** C4 at work: Resume in [Idle] is none of the five rules. *)
Lemma C4_five_rules_witness :
  SyncStateMachine.handleEvent Resume {| SyncStateMachine.currentState := Idle |}
    = (false, {| SyncStateMachine.currentState := Idle |}, []) ∧
  (∀ weak,
     LockFreeStateMachine.handleEvent weak Resume
       {| LockFreeStateMachine.currentState := Idle |}
     = Some (false, {| LockFreeStateMachine.currentState := Idle |}, weak)) ∧
  (∀ World (callback : option (SyncStateMachine_Callback.TransitionCallback World)) w,
     SyncStateMachine_Callback.handleEvent Resume
       {| SyncStateMachine_Callback.currentState := Idle;
          SyncStateMachine_Callback.onStateChanged := callback |} w
     = (Returns false,
        {| SyncStateMachine_Callback.currentState := Idle;
           SyncStateMachine_Callback.onStateChanged := callback |}, w)).
Proof.
  apply (proj2 (proj2 C4_five_rules) Idle Resume).
  apply (bool_decide_unpack _). vm_compute. exact I.
Defined.

(** ** The terminal state *)

Section Terminal.
Variable table : TransitionTable.
Hypothesis Stopped_has_no_rule : ∀ e, table !! (Stopped, e) = None.

Lemma sync_run_on_Stopped events :
  SyncStateMachine.run_on table events {| SyncStateMachine.currentState := Stopped |}
  = (replicate (length events) false, {| SyncStateMachine.currentState := Stopped |}, []).
Proof.
  induction events as [|event events IH]; simpl; [done|].
  rewrite sync_handleEvent_on_None by apply Stopped_has_no_rule. by rewrite IH.
Qed.

Lemma lockfree_run_on_Stopped events weak :
  LockFreeStateMachine.run_on table weak events
    {| LockFreeStateMachine.currentState := Stopped |}
  = Some (replicate (length events) false,
          {| LockFreeStateMachine.currentState := Stopped |}, weak).
Proof.
  induction events as [|event events IH]; simpl; [done|].
  rewrite lockfree_handleEvent_on_None by apply Stopped_has_no_rule. simpl.
  by rewrite IH.
Qed.

Lemma callback_run_on_Stopped {World}
    (callback : option (SyncStateMachine_Callback.TransitionCallback World)) events w :
  SyncStateMachine_Callback.run_on table events
    {| SyncStateMachine_Callback.currentState := Stopped;
       SyncStateMachine_Callback.onStateChanged := callback |} w
  = (replicate (length events) (Returns false),
     {| SyncStateMachine_Callback.currentState := Stopped;
        SyncStateMachine_Callback.onStateChanged := callback |}, w).
Proof.
  induction events as [|event events IH]; simpl; [done|].
  unfold SyncStateMachine_Callback.handleEvent_on at 1. simpl.
  rewrite Stopped_has_no_rule. by rewrite IH.
Qed.

(** Under any interleaving too: once the cell holds [Stopped], no step of
    any thread changes it.  A thread about to compare-exchange expects the
    source state of a rule, which [Stopped] is not. *)
Lemma lockfree_sched_step_on_Stopped pick c :
  LockFreeStateMachine.config_ok_on table c →
  LockFreeStateMachine.currentState c.1 = Stopped →
  LockFreeStateMachine.currentState (LockFreeStateMachine.sched_step_on table pick c).1
  = Stopped.
Proof.
  destruct c as [m threads]. intros [_ Hok] Hm. simpl in *.
  unfold LockFreeStateMachine.sched_step_on. simpl.
  destruct (threads !! pick.1) as [th|] eqn:Hth; [|done].
  pose proof (Forall_lookup_1 _ _ _ _ Hok Hth) as Hthok.
  unfold LockFreeStateMachine.thread_step_on, LockFreeStateMachine.thread_ok_on in *.
  destruct (LockFreeStateMachine.todo th) as [|event rest]; [done|].
  destruct (LockFreeStateMachine.pc th) as [|expected desired].
  - unfold LockFreeStateMachine.load. rewrite Hm, Stopped_has_no_rule. done.
  - unfold LockFreeStateMachine.compare_exchange_weak.
    destruct (bool_decide_reflect (LockFreeStateMachine.currentState m = expected))
      as [Heq|Hne]; simpl; [|done].
    rewrite <- Heq, Hm, Stopped_has_no_rule in Hthok. done.
Qed.

Lemma lockfree_exec_on_Stopped schedule : ∀ c,
  LockFreeStateMachine.config_ok_on table c →
  LockFreeStateMachine.currentState c.1 = Stopped →
  LockFreeStateMachine.currentState (LockFreeStateMachine.exec_on table schedule c).1
  = Stopped.
Proof.
  induction schedule as [|pick schedule IH]; intros c Hok Hm; [done|].
  rewrite lockfree_exec_on_cons. apply IH.
  - by apply lockfree_sched_step_on_ok.
  - by apply lockfree_sched_step_on_Stopped.
Qed.
End Terminal.

(** C5.  A machine of any of the three classes that is in [Stopped] answers
    false to every call that follows, whatever the events and however many,
    and stays in [Stopped]; the lock-free one does so without a single
    compare-exchange, and the callback is not called. *)
Theorem C5_Stopped_is_terminal (events : list Event) :
  SyncStateMachine.run events {| SyncStateMachine.currentState := Stopped |}
    = (replicate (length events) false,
       {| SyncStateMachine.currentState := Stopped |}, []) ∧
  (∀ weak,
     LockFreeStateMachine.run weak events {| LockFreeStateMachine.currentState := Stopped |}
     = Some (replicate (length events) false,
             {| LockFreeStateMachine.currentState := Stopped |}, weak)) ∧
  (∀ World (callback : option (SyncStateMachine_Callback.TransitionCallback World)) w,
     SyncStateMachine_Callback.run events
       {| SyncStateMachine_Callback.currentState := Stopped;
          SyncStateMachine_Callback.onStateChanged := callback |} w
     = (replicate (length events) (Returns false),
        {| SyncStateMachine_Callback.currentState := Stopped;
           SyncStateMachine_Callback.onStateChanged := callback |}, w)).
Proof.
  split; [|split].
  - apply sync_run_on_Stopped, transitionRules_Stopped.
  - intros weak. apply lockfree_run_on_Stopped, transitionRules_Stopped.
  - intros World callback w. apply callback_run_on_Stopped, transitionRules_Stopped.
Qed.

(** X4.  At every moment of every execution of the lock-free machine by
    any threads: a cell that holds [Stopped] holds it for ever after. *)
Theorem lockfree_Stopped_forever (programs : list (list Event))
    (before after : list (nat * bool)) :
  let start := (LockFreeStateMachine.new, LockFreeStateMachine.spawn programs) in
  LockFreeStateMachine.currentState (LockFreeStateMachine.exec before start).1 = Stopped →
  LockFreeStateMachine.currentState
    (LockFreeStateMachine.exec (before ++ after) start).1 = Stopped.
Proof.
  intros start Hbefore. unfold LockFreeStateMachine.exec in *.
  rewrite lockfree_exec_on_app.
  apply lockfree_exec_on_Stopped; [apply transitionRules_Stopped| |done].
  apply lockfree_exec_on_ok, lockfree_spawn_ok.
Qed.

(** ** SyncStateMachine_Callback *)

(** C6, as stated, fails: the contract of [SyncStateMachine] includes
    [getCurrentState], and [SyncStateMachine_Callback] declares no such
    member; its state can be seen only in the results of [handleEvent] and
    in what the callback is given. *)
Lemma C6_callback_has_no_getCurrentState :
  ¬ (∀ member,
       member ∈ Interface.public_members Interface.SyncStateMachine →
       member ∈ Interface.public_members Interface.SyncStateMachine_Callback).
Proof.
  intros H. specialize (H Interface.getCurrentState). simpl in H.
  assert (Interface.getCurrentState ∈ [Interface.setCallback; Interface.handleEvent]) as Hin.
  { apply H. set_solver. }
  rewrite !elem_of_cons, elem_of_nil in Hin. by destruct Hin as [?|[?|[]]].
Qed.

(** C6, amended.  [handleEvent] of [SyncStateMachine_Callback] moves to the
    state [handleEvent] of [SyncStateMachine] moves to, and when it returns
    it returns what that one returns.  When the table has a rule and a
    callback is set, the callback is called once, with the state of before
    the call, the event, and the state the machine holds at that moment,
    which is the target of the rule: the assignment has been made.  If the
    callback returns, [handleEvent] returns true; if it throws, the
    exception leaves [handleEvent], no value is returned, and the machine
    keeps the target of the rule, which only a call made after the
    assignment explains.  With no rule the callback is not called. *)
Theorem C6_callback_handleEvent {World : Type}
    (callback : option (SyncStateMachine_Callback.TransitionCallback World))
    (s : State) (event : Event) (w : World) :
  let m := {| SyncStateMachine_Callback.currentState := s;
              SyncStateMachine_Callback.onStateChanged := callback |} in
  let r := SyncStateMachine_Callback.handleEvent event m w in
  match transitionRules !! (s, event) with
  | Some next =>
      let committed := {| SyncStateMachine_Callback.currentState := next;
                          SyncStateMachine_Callback.onStateChanged := callback |} in
      match callback with
      | None => r = (Returns true, committed, w)
      | Some f =>
          match f s event next w with
          | Finished w' => r = (Returns true, committed, w')
          | Raised what w' => r = (Escapes what, committed, w')
          end
      end
  | None => r = (Returns false, m, w)
  end ∧
  ∃ ok final out,
    SyncStateMachine.handleEvent event {| SyncStateMachine.currentState := s |}
      = (ok, {| SyncStateMachine.currentState := final |}, out) ∧
    SyncStateMachine_Callback.currentState r.1.2 = final ∧
    (r.1.1 = Returns ok ∨ ok = true ∧ ∃ what, r.1.1 = Escapes what).
Proof.
  unfold SyncStateMachine_Callback.handleEvent, SyncStateMachine_Callback.handleEvent_on,
    SyncStateMachine.handleEvent, SyncStateMachine.handleEvent_on.
  simpl. destruct (transitionRules !! (s, event)) as [next|].
  - destruct callback as [f|]; simpl.
    + destruct (f s event next w) as [w'|what w']; (split; [done|]);
        eexists _, _, _; (split; [done|]); (split; [done|]); eauto.
    + split; [done|]. eexists _, _, _. eauto.
  - split; [done|]. eexists _, _, _. eauto.
Qed.

(** C8.  With no callback registered, [handleEvent] on a rule of the table
    commits the target and returns true, and acts on nothing else; and
    whatever the machine, [handleEvent] never ends in the exception of a
    call of an empty [std::function]: the call is made only under the test
    that there is a target. *)
Theorem C8_no_callback_still_commits {World : Type} (s : State) (event : Event) (w : World) :
  match transitionRules !! (s, event) with
  | Some next =>
      SyncStateMachine_Callback.handleEvent event
        {| SyncStateMachine_Callback.currentState := s;
           SyncStateMachine_Callback.onStateChanged := None |} w
      = (Returns true,
         {| SyncStateMachine_Callback.currentState := next;
            SyncStateMachine_Callback.onStateChanged := None |}, w)
  | None => True
  end ∧
  (∀ (m : SyncStateMachine_Callback.t World) what,
     (SyncStateMachine_Callback.handleEvent event m w).1.1 ≠ Throws what).
Proof.
  unfold SyncStateMachine_Callback.handleEvent, SyncStateMachine_Callback.handleEvent_on.
  split.
  - simpl. by destruct (transitionRules !! (s, event)).
  - intros m what.
    destruct (transitionRules !! (SyncStateMachine_Callback.currentState m, event)); [|done].
    simpl. destruct (SyncStateMachine_Callback.onStateChanged m) as [f|]; simpl; [|done].
    by destruct (f _ _ _ _).
Qed.

(** ** Building the table *)

(** C7, as stated, fails: from two rules with the key (Idle, Start), the
    constructor of [std::map] builds a table all the same, with the first of
    the two; [handleEvent] on that table takes Idle to Running on Start. *)
Lemma C7_conflicting_rules_build :
  ¬ NoDup conflicting_rules.*1 ∧
  map_of_initializer_list conflicting_rules = {[ (Idle, Start) := Running ]} ∧
  SyncStateMachine.handleEvent_on (map_of_initializer_list conflicting_rules) Start
    SyncStateMachine.new
  = (true, {| SyncStateMachine.currentState := Running |},
     ["Come in next status [Idle] -> [Running]"]).
Proof.
  split; [|split].
  - simpl. rewrite NoDup_cons. intros [Hnot _]. apply Hnot. set_solver.
  - apply map_eq. intros k. rewrite map_of_initializer_list_lookup.
    destruct (decide (k = (Idle, Start))) as [->|Hne].
    + by rewrite lookup_singleton_eq.
    + rewrite lookup_singleton_ne by done. simpl. by rewrite !decide_False.
  - reflexivity.
Qed.

(** C7, amended.  Building the table never fails: from any list of rules
    the constructor makes a table that gives, for each key, the target of
    the first rule listed with that key, later rules with the key being
    dropped; so [find] yields at most one target and [handleEvent] follows
    the first rule.  The five rules of the source have five different keys. *)
Theorem C7_first_rule_wins (rules : list TransitionRule) :
  (∀ k, map_of_initializer_list rules !! k = first_rule rules k) ∧
  (∀ event m,
     (SyncStateMachine.handleEvent_on (map_of_initializer_list rules) event m).1
     = match first_rule rules (SyncStateMachine.currentState m, event) with
       | Some next => (true, {| SyncStateMachine.currentState := next |})
       | None => (false, m)
       end) ∧
  NoDup transitionRules_init.*1.
Proof.
  split; [|split].
  - apply map_of_initializer_list_lookup.
  - intros event m. unfold SyncStateMachine.handleEvent_on.
    rewrite map_of_initializer_list_lookup.
    by destruct (first_rule rules (SyncStateMachine.currentState m, event)).
  - apply (bool_decide_unpack _). vm_compute. exact I.
Qed.

(* ===================================================================== *)
(** * Properties of the scheduler                                         *)
(* ===================================================================== *)

(** ** FifoStrategy *)

Section FifoFacts.
Import TaskScheduler.
Context {World : Type}.
Implicit Types (task : Task World) (tasks : list (Task World)) (w : World).

(** Submitting appends to the queue. *)
Lemma fifo_submit_all (pointers : list (TaskPtr World)) : ∀ (sch : Scheduler (FifoStrategy World)),
  queue_ (strategy_ (foldl (λ sch p, submit p sch) sch pointers))
  = queue_ (strategy_ sch) ++ pointers.
Proof.
  induction pointers as [|p pointers IH]; intros sch; simpl.
  - by rewrite app_nil_r.
  - rewrite IH. simpl. by rewrite <- app_assoc.
Qed.

(** What [execute_in_order] gives: the tasks split into those called and
    those not; a loop that returns has called them all; one left by an
    exception has called, last, a task that threw it. *)
Lemma execute_in_order_split tasks : ∀ w,
  let '(called, pending, w', c) := execute_in_order tasks w in
  called ++ pending = tasks ∧
  match c with
  | Returns _ => pending = []
  | Escapes what =>
      ∃ before task w0, called = before ++ [task] ∧ execute task w0 = Raised what w'
  | Throws _ => False
  end.
Proof.
  induction tasks as [|task tasks IH]; intros w; simpl; [done|].
  destruct (execute task w) as [w1|what w1] eqn:Hex.
  - specialize (IH w1). destruct (execute_in_order tasks w1) as [[[called pending] w2] c].
    destruct IH as [<- Hc]. split; [done|].
    destruct c as [[]|what|what]; [done..|].
    destruct Hc as (before & last & w0 & -> & Hlast).
    by exists (task :: before), last, w0.
  - split; [done|]. by exists [], task, w.
Qed.

(** Tasks that all return are all called. *)
Lemma execute_in_order_finished tasks : ∀ w,
  (∀ task w0, task ∈ tasks → execute task w0 = Finished (world_after (execute task w0))) →
  execute_in_order tasks w
  = (tasks, [], foldl (λ w task, world_after (execute task w)) w tasks, Returns ()).
Proof.
  induction tasks as [|task tasks IH]; intros w Hfin; simpl; [done|].
  rewrite (Hfin task w) by left. simpl.
  rewrite IH; [done|]. intros task' w0 Hin. apply Hfin. by right.
Qed.

(** A queue of non-null pointers is run in order, to its end or to the
    first task that throws. *)
Lemma fifo_run_all tasks : ∀ extra w,
  run (S (length tasks) + extra) {| strategy_ := {| queue_ := Some <$> tasks |} |} w
  = let '(called, pending, w', c) := execute_in_order tasks w in
    Some (called, {| strategy_ := {| queue_ := Some <$> pending |} |}, w', c).
Proof.
  induction tasks as [|task tasks IH]; intros extra w; [done|].
  simpl. simpl in IH. destruct (execute task w) as [w1|what w1]; [|done].
  rewrite IH. by destruct (execute_in_order tasks w1) as [[[called pending] w2] c].
Qed.
End FifoFacts.

(** C9, as stated, fails: a null pointer can be submitted like any other
    [std::unique_ptr<Task>].  With one in it the queue is not empty, yet
    [getNextTask] returns nullptr; and [run] stops at a null pointer, so of
    the tasks First, nullptr, Third only First is executed, Third staying
    in the queue. *)
Lemma C9_null_pointer_in_queue :
  let s := TaskScheduler.FifoStrategy_addTask (World := list string) None
             TaskScheduler.FifoStrategy_new in
  TaskScheduler.queue_ s ≠ [] ∧
  (TaskScheduler.FifoStrategy_getNextTask s).1 = None ∧
  ∀ extra,
    TaskScheduler.run (3 + extra)
      (foldl (λ sch p, TaskScheduler.submit p sch)
         {| TaskScheduler.strategy_ := TaskScheduler.FifoStrategy_new |}
         [Some (TaskScheduler.PrintTask "First"); None;
          Some (TaskScheduler.PrintTask "Third")])
      []
    = Some ([TaskScheduler.PrintTask "First"],
            {| TaskScheduler.strategy_ :=
                 {| TaskScheduler.queue_ := [Some (TaskScheduler.PrintTask "Third")] |} |},
            ["Executing: First"], Returns ()).
Proof. repeat split; done. Qed.

(** C9, amended.  [FifoStrategy::getNextTask] returns nullptr exactly when
    its queue is empty or the earliest-added pointer is null, and otherwise
    removes and returns the earliest-added task, [addTask] adding at the
    other end; so for every finite sequence of non-null tasks submitted,
    [Scheduler::run] calls [execute()] of the tasks in the order of
    submission, each at most once, until the queue is empty or a call
    throws.  If every call returns, each task is executed once and [run]
    returns, leaving the queue empty; a call that throws ends [run] with its
    exception, the tasks submitted after that one staying in the queue,
    not executed. *)
Theorem C9_fifo_in_submission_order {World : Type}
    (s : TaskScheduler.FifoStrategy World) (tasks : list (TaskScheduler.Task World))
    (w : World) (extra : nat) :
  (TaskScheduler.getNextTask s
   = match TaskScheduler.queue_ s with
     | [] => (None, s)
     | earliest :: later => (earliest, {| TaskScheduler.queue_ := later |})
     end) ∧
  ((TaskScheduler.getNextTask s).1 = None ↔
   TaskScheduler.queue_ s = [] ∨ head (TaskScheduler.queue_ s) = Some None) ∧
  (∀ p, TaskScheduler.queue_ (TaskScheduler.addTask p s) = TaskScheduler.queue_ s ++ [p]) ∧
  let submitted :=
    foldl (λ sch p, TaskScheduler.submit p sch)
      {| TaskScheduler.strategy_ := TaskScheduler.FifoStrategy_new |} (Some <$> tasks) in
  (∃ called pending w' c,
     TaskScheduler.run (S (length tasks) + extra) submitted w
     = Some (called, {| TaskScheduler.strategy_ := {| TaskScheduler.queue_ := Some <$> pending |} |},
             w', c) ∧
     execute_in_order tasks w = (called, pending, w', c) ∧
     called ++ pending = tasks ∧
     match c with
     | Returns _ => pending = []
     | Escapes what =>
         ∃ before task w0,
           called = before ++ [task] ∧ TaskScheduler.execute task w0 = Raised what w'
     | Throws _ => False
     end) ∧
  ((∀ task w0, task ∈ tasks → ∃ w1, TaskScheduler.execute task w0 = Finished w1) →
   TaskScheduler.run (S (length tasks) + extra) submitted w
   = Some (tasks, {| TaskScheduler.strategy_ := TaskScheduler.FifoStrategy_new |},
           foldl (λ w task, world_after (TaskScheduler.execute task w)) w tasks,
           Returns ())).
Proof.
  split; [|split; [|split]].
  - done.
  - simpl. unfold TaskScheduler.FifoStrategy_getNextTask.
    destruct (TaskScheduler.queue_ s) as [|[task|] later]; simpl; intuition congruence.
  - done.
  - intros submitted.
    assert (submitted
            = {| TaskScheduler.strategy_ := {| TaskScheduler.queue_ := Some <$> tasks |} |})
      as ->.
    { pose proof (fifo_submit_all (Some <$> tasks)
        {| TaskScheduler.strategy_ := TaskScheduler.FifoStrategy_new |}) as Hq.
      simpl in Hq. subst submitted.
      destruct (foldl _ _ _) as [[queue]]. simpl in Hq. by subst queue. }
    pose proof (fifo_run_all tasks extra w) as Hrun.
    pose proof (execute_in_order_split tasks w) as Hsplit.
    split.
    + destruct (execute_in_order tasks w) as [[[called pending] w'] c] eqn:Hexec.
      exists called, pending, w', c. by destruct Hsplit.
    + intros Hfin. rewrite Hrun, execute_in_order_finished; [done|].
      intros task w0 Hin. destruct (Hfin task w0 Hin) as [w1 ->]. done.
Qed.

(** ** PriorityStrategy *)

Section PriorityFacts.
Import TaskScheduler.
Context {World : Type}.
Implicit Types (task : Task World) (p : TaskPtr World) (l : list (TaskPtr World)).

Lemma TaskComparator_false p1 p2 :
  TaskComparator p1 p2 = Some false ↔
  ∃ t1 t2, p1 = Some t1 ∧ p2 = Some t2 ∧ (getPriority t1 ≤ getPriority t2)%Z.
Proof.
  destruct p1 as [t1|], p2 as [t2|]; simpl; try (split; [done | by intros (?&?&?&?&?)]).
  split.
  - intros [= H]. apply bool_decide_eq_false in H. exists t1, t2. repeat split; lia.
  - intros (?&?&[= <-]&[= <-]&?). f_equal. apply bool_decide_eq_false. lia.
Qed.

Lemma comparable_non_null l : Forall is_Some l → StdHeap.comparable TaskComparator l.
Proof.
  rewrite Forall_forall. intros Hl p1 p2 H1 H2.
  destruct (Hl _ H1) as [t1 ->], (Hl _ H2) as [t2 ->]. by eexists.
Qed.

(** In a heap for [TaskComparator] the first task has the least
    priority: go up from any place, parent by parent. *)
Lemma heap_front_least l top :
  StdHeap.is_heap TaskComparator l → l !! 0 = Some (Some top) →
  ∀ i other, l !! i = Some (Some other) → (getPriority top ≤ getPriority other)%Z.
Proof.
  intros Hheap Htop i. induction (lt_wf i) as [i _ IH]. intros other Hi.
  destruct (decide (i = 0)) as [->|Hpos].
  - rewrite Htop in Hi. injection Hi as ->. lia.
  - assert ((i - 1) `div` 2 < i) as Hlt.
    { apply Nat.Div0.div_lt_upper_bound; lia. }
    destruct (lookup_lt_is_Some_2 l ((i - 1) `div` 2)) as [parent Hparent].
    { apply lookup_lt_Some in Hi. exact (Nat.lt_trans _ _ _ Hlt Hi). }
    pose proof (Hheap i parent (Some other) ltac:(lia) Hparent Hi) as Hcmp.
    apply TaskComparator_false in Hcmp as (t1 & t2 & -> & [= <-] & Hle).
    pose proof (IH _ Hlt t1 Hparent). lia.
Qed.

(** A vector in ascending order of priority is a heap. *)
Lemma StronglySorted_lookup_lt {A} (R : relation A) (l : list A) i j a b :
  StronglySorted R l → i < j → l !! i = Some a → l !! j = Some b → R a b.
Proof.
  intros Hl. revert i j. induction Hl as [|x l Hl IH Hx]; intros i j Hij Hi Hj; [done|].
  destruct j as [|j]; [lia|]. simpl in Hj. destruct i as [|i]; simpl in Hi.
  - injection Hi as ->. rewrite Forall_forall in Hx. by eapply Hx, list_elem_of_lookup_2.
  - eapply (IH i j); [lia|done..].
Qed.

#[local] Instance key_le_transitive : Transitive (@key_le World).
Proof. unfold key_le. intros ???. lia. Qed.
#[local] Instance key_le_total : Total (@key_le World).
Proof. unfold key_le. intros ??. lia. Qed.

Lemma sorted_is_heap l :
  Forall is_Some l → StdHeap.is_heap TaskComparator (merge_sort key_le l).
Proof.
  intros Hl i parent child Hpos Hparent Hchild.
  assert (Forall is_Some (merge_sort key_le l)) as Hl'.
  { by rewrite merge_sort_Permutation. }
  destruct (Forall_lookup_1 _ _ _ _ Hl' Hparent) as [t1 ->].
  destruct (Forall_lookup_1 _ _ _ _ Hl' Hchild) as [t2 ->].
  apply TaskComparator_false. exists t1, t2. repeat split.
  assert ((i - 1) `div` 2 < i) as Hlt by (apply Nat.Div0.div_lt_upper_bound; lia).
  apply (StronglySorted_lookup_lt key_le _ _ _ _ _
           (StronglySorted_merge_sort key_le l) Hlt Hparent Hchild).
Qed.

Lemma comparable_is_Some l : l ≠ [] → StdHeap.comparable TaskComparator l → Forall is_Some l.
Proof.
  intros _ Hl. rewrite Forall_forall. intros p Hp.
  destruct (Hl p p Hp Hp) as [b Hb]. destruct p; [by eexists | done].
Qed.

(** The algorithms that keep the vector sorted obey the laws. *)
Lemma sorted_heap_laws : StdHeap.HeapLaws (@TaskComparator World) sorted_heap.
Proof.
  split; simpl.
  - intros l x _ Hcmp. split; [|apply merge_sort_Permutation].
    apply sorted_is_heap, comparable_is_Some; [by destruct l | done].
  - done.
  - intros x l _ Hcmp. exists (merge_sort key_le l). split; [done|].
    split; [|apply merge_sort_Permutation].
    apply sorted_is_heap.
    apply comparable_is_Some in Hcmp; [|done]. by apply Forall_cons in Hcmp as [_ ?].
  - done.
Qed.

(** They never look at the first element of the range they pop. *)
Lemma sorted_heap_spares_front : StdHeap.pop_heap_spares_front (@sorted_heap World).
Proof. intros x0 x l l' Hpop. simpl in *. by apply app_inj_tail in Hpop as [-> _]. Qed.

(** The algorithms that give up a range with a null pointer in front obey
    the laws as well: a heap of two or more elements has no null pointer in
    it, the comparisons within it being defined. *)
Lemma strict_heap_laws : StdHeap.HeapLaws (@TaskComparator World) strict_heap.
Proof.
  split; simpl.
  - intros l x _ Hcmp. split; [|apply merge_sort_Permutation].
    apply sorted_is_heap, comparable_is_Some; [by destruct l | done].
  - done.
  - intros x l _ Hcmp. destruct l as [|y l].
    + exists []. split; [by destruct x|]. split; [|done]. by intros i parent child _ ?.
    + apply comparable_is_Some in Hcmp; [|done].
      apply Forall_cons in Hcmp as [[task ->] Hl]. simpl.
      exists (merge_sort key_le (y :: l)). split; [done|].
      split; [|apply merge_sort_Permutation]. by apply sorted_is_heap.
  - by intros [task|].
Qed.

Section WithLaws.
Variable alg : StdHeap.HeapAlgorithms (TaskPtr World).
Hypothesis laws : StdHeap.HeapLaws TaskComparator alg.
Hypothesis spares : StdHeap.pop_heap_spares_front alg.

(** What [pop] does after the pointer has been moved out of the top: the
    contract says what [pop_heap] does to the heap as it was, and the
    first element has no part in that. *)
Lemma pop_heap_moved_from x0 x l :
  StdHeap.is_heap TaskComparator (x0 :: l) → StdHeap.comparable TaskComparator (x0 :: l) →
  ∃ l', StdHeap.pop_heap alg (x :: l) = l' ++ [x] ∧
        StdHeap.is_heap TaskComparator l' ∧ l' ≡ₚ l.
Proof.
  intros Hheap Hcmp.
  destruct (StdHeap.pop_heap_heap _ _ laws x0 l Hheap Hcmp) as (l' & Hpop & Hheap' & Hperm).
  exists l'. split; [|done]. by apply (spares x0).
Qed.

Lemma priority_addTask_wf task s :
  PriorityStrategy_wf s →
  PriorityStrategy_wf (PriorityStrategy_addTask alg (Some task) s) ∧
  StdHeap.c (pq_ (PriorityStrategy_addTask alg (Some task) s))
    ≡ₚ Some task :: StdHeap.c (pq_ s).
Proof.
  intros [Hheap Hnn]. unfold PriorityStrategy_wf. simpl.
  destruct (StdHeap.push_heap_heap _ _ laws (StdHeap.c (pq_ s)) (Some task))
    as [Hheap' Hperm]; [done| |].
  { apply comparable_non_null, Forall_app. split; [done|]. repeat constructor. by eexists. }
  repeat split; [done| |].
  - rewrite Hperm. apply Forall_app. split; [done|]. repeat constructor. by eexists.
  - rewrite Hperm. by rewrite Permutation_app_comm.
Qed.

(** [getNextTask] on a well-formed strategy. *)
Lemma priority_getNextTask_wf s :
  PriorityStrategy_wf s →
  match StdHeap.c (pq_ s) with
  | [] => PriorityStrategy_getNextTask alg s = (None, s)
  | _ :: _ =>
      ∃ task s',
        PriorityStrategy_getNextTask alg s = (Some task, s') ∧
        Some task ∈ StdHeap.c (pq_ s) ∧
        (∀ other, Some other ∈ StdHeap.c (pq_ s) →
                  (getPriority task ≤ getPriority other)%Z) ∧
        StdHeap.c (pq_ s) ≡ₚ Some task :: StdHeap.c (pq_ s') ∧
        PriorityStrategy_wf s'
  end.
Proof.
  intros [Hheap Hnn]. unfold PriorityStrategy_getNextTask, StdHeap.empty, StdHeap.top.
  destruct s as [[l]]. simpl in *. destruct l as [|p l]; [done|].
  pose proof (Forall_inv Hnn) as [task ->]. simpl.
  destruct (pop_heap_moved_from (Some task) None l)
    as (l' & Hpop & Hheap' & Hperm); [done|by apply comparable_non_null|].
  exists task, {| pq_ := {| StdHeap.c := l' |} |}.
  unfold StdHeap.pop. simpl. rewrite Hpop, removelast_last.
  repeat split.
  - set_solver.
  - intros other Hother. apply list_elem_of_lookup in Hother as [i Hi].
    by eapply (heap_front_least _ task Hheap).
  - by rewrite Hperm.
  - done.
  - simpl. rewrite Hperm. by apply Forall_inv_tail in Hnn.
Qed.

Lemma priority_built_wf s : PriorityStrategy_built alg s → PriorityStrategy_wf s.
Proof.
  induction 1 as [|task s _ IH|s _ IH].
  - split; simpl; [|constructor]. by intros i parent child _ ?.
  - by apply priority_addTask_wf.
  - pose proof (priority_getNextTask_wf s IH) as Hget.
    destruct (StdHeap.c (pq_ s)) as [|p l] eqn:Hc.
    + by rewrite Hget.
    + destruct Hget as (task & s' & -> & _ & _ & _ & Hwf). done.
Qed.

(** A null pointer put into an empty queue comes back as the "no task"
    answer, whatever the heap algorithms. *)
Lemma priority_null_pointer :
  let s := PriorityStrategy_addTask alg None PriorityStrategy_new in
  StdHeap.empty (pq_ s) = false ∧
  PriorityStrategy_getNextTask alg s = (None, PriorityStrategy_new).
Proof.
  unfold PriorityStrategy_getNextTask, PriorityStrategy_addTask, StdHeap.push,
    StdHeap.pop, StdHeap.empty, StdHeap.top. simpl.
  rewrite (StdHeap.push_heap_one _ _ laws). simpl.
  by rewrite (StdHeap.pop_heap_one _ _ laws).
Qed.
End WithLaws.
End PriorityFacts.

(** C10, as stated, fails for the same reason as C9: a null pointer put
    into an empty [PriorityStrategy] makes a queue that is not empty, and
    [getNextTask] returns nullptr from it.  (No comparison is made on a
    queue of one element, so the null pointer is not dereferenced.) *)
Lemma C10_null_pointer_in_queue :
  let s := TaskScheduler.PriorityStrategy_addTask (World := list string)
             TaskScheduler.sorted_heap None TaskScheduler.PriorityStrategy_new in
  StdHeap.empty (TaskScheduler.pq_ s) = false ∧
  (TaskScheduler.PriorityStrategy_getNextTask TaskScheduler.sorted_heap s).1 = None.
Proof.
  pose proof (priority_null_pointer (World := list string) TaskScheduler.sorted_heap
                sorted_heap_laws) as [Hempty Hget].
  split; [exact Hempty|]. cbv zeta. by rewrite Hget.
Qed.

(** X16.  The contract of [pop_heap] alone does not carry [getNextTask],
    which calls [pop] on a range with a null pointer in front: with
    [strict_heap], which obeys the contract but looks at the first element,
    the first [getNextTask] of the demonstration of [main] returns the task
    of priority 1 and leaves an empty queue, the tasks of priority 2 and 3
    being lost. *)
Lemma contract_alone_loses_tasks :
  StdHeap.HeapLaws TaskScheduler.TaskComparator (strict_heap (World := list string)) ∧
  ¬ StdHeap.pop_heap_spares_front (strict_heap (World := list string)) ∧
  TaskScheduler.PriorityStrategy_getNextTask strict_heap
    (TaskScheduler.demo_strategy strict_heap)
  = (Some (TaskScheduler.PriorityTask "Urgent" 1), TaskScheduler.PriorityStrategy_new).
Proof.
  split; [apply strict_heap_laws|]. split; [|reflexivity].
  intros Hspares.
  pose proof (Hspares (Some (TaskScheduler.PrintTask "a")) None
                [Some (TaskScheduler.PrintTask "b")] [Some (TaskScheduler.PrintTask "b")]
                eq_refl) as Hpop.
  discriminate Hpop.
Qed.

(** C10, amended.  Take heap algorithms that obey the contract of
    [push_heap] and [pop_heap] and whose [pop_heap] moves the first element
    of the range to the last place without looking at it, and a
    [PriorityStrategy] reached from a new one by [addTask] of non-null
    pointers and by [getNextTask].  Then the queue holds no null pointer
    and [addTask] of a task adds that task to it; [getNextTask] returns
    nullptr exactly when the queue is empty, and otherwise returns a task of
    the queue whose [getPriority()] is less than or equal to that of every
    task of the queue, and takes that task, and nothing else, out of the
    queue. *)
Theorem C10_priority_least_first {World : Type}
    (alg : StdHeap.HeapAlgorithms (TaskScheduler.TaskPtr World))
    (laws : StdHeap.HeapLaws TaskScheduler.TaskComparator alg)
    (spares : StdHeap.pop_heap_spares_front alg)
    (s : TaskScheduler.PriorityStrategy World)
    (Hs : TaskScheduler.PriorityStrategy_built alg s) :
  let queued := StdHeap.c (TaskScheduler.pq_ s) in
  Forall is_Some queued ∧
  (∀ task,
     StdHeap.c (TaskScheduler.pq_ (TaskScheduler.PriorityStrategy_addTask alg (Some task) s))
     ≡ₚ Some task :: queued) ∧
  if StdHeap.empty (TaskScheduler.pq_ s)
  then TaskScheduler.PriorityStrategy_getNextTask alg s = (None, s)
  else ∃ task s',
         TaskScheduler.PriorityStrategy_getNextTask alg s = (Some task, s') ∧
         Some task ∈ queued ∧
         (∀ other, Some other ∈ queued →
            (TaskScheduler.getPriority task ≤ TaskScheduler.getPriority other)%Z) ∧
         queued ≡ₚ Some task :: StdHeap.c (TaskScheduler.pq_ s').
Proof.
  intros queued. pose proof (priority_built_wf alg laws spares s Hs) as Hwf.
  split; [apply Hwf|]. split.
  - intros task. by apply priority_addTask_wf.
  - pose proof (priority_getNextTask_wf alg laws spares s Hwf) as Hget.
    unfold StdHeap.empty. subst queued.
    destruct (StdHeap.c (TaskScheduler.pq_ s)) as [|p l]; [done|].
    destruct Hget as (task & s' & Hcall & Hin & Hleast & Hperm & _).
    by exists task, s'.
Qed.

(** C10 at work: the sorting algorithms, which obey the contract and do
    not look at the element they move, and the strategy of the
    demonstration of [main]. *)
Lemma C10_priority_least_first_witness :
  let s := TaskScheduler.demo_strategy TaskScheduler.sorted_heap in
  let queued := StdHeap.c (TaskScheduler.pq_ s) in
  Forall is_Some queued ∧
  (∀ task,
     StdHeap.c (TaskScheduler.pq_
       (TaskScheduler.PriorityStrategy_addTask TaskScheduler.sorted_heap (Some task) s))
     ≡ₚ Some task :: queued) ∧
  if StdHeap.empty (TaskScheduler.pq_ s)
  then TaskScheduler.PriorityStrategy_getNextTask TaskScheduler.sorted_heap s = (None, s)
  else ∃ task s',
         TaskScheduler.PriorityStrategy_getNextTask TaskScheduler.sorted_heap s
           = (Some task, s') ∧
         Some task ∈ queued ∧
         (∀ other, Some other ∈ queued →
            (TaskScheduler.getPriority task ≤ TaskScheduler.getPriority other)%Z) ∧
         queued ≡ₚ Some task :: StdHeap.c (TaskScheduler.pq_ s').
Proof.
  apply (C10_priority_least_first TaskScheduler.sorted_heap sorted_heap_laws
           sorted_heap_spares_front
           (TaskScheduler.demo_strategy TaskScheduler.sorted_heap)).
  unfold TaskScheduler.demo_strategy. repeat constructor.
Defined.

(** ** Scheduler::run with a PriorityStrategy *)

Section PriorityRun.
Import TaskScheduler.
Context {World : Type}.
Variable alg : StdHeap.HeapAlgorithms (TaskPtr World).
Hypothesis laws : StdHeap.HeapLaws TaskComparator alg.
Hypothesis spares : StdHeap.pop_heap_spares_front alg.

(** [run] takes the tasks out of the queue in ascending order of priority
    and calls [execute()] of each, until the queue is empty or a call
    throws; the tasks it has not called stay in the queue, and none of them
    has a priority below that of a task called. *)
Lemma priority_run_sorted n : ∀ (s : PriorityStrategy World) extra (w : World),
  PriorityStrategy_wf s → length (StdHeap.c (pq_ s)) = n →
  ∃ called s' w' c,
    run (strategy := PriorityStrategy_strategy alg) (S n + extra) {| strategy_ := s |} w
    = Some (called, {| strategy_ := s' |}, w', c) ∧
    (Some <$> called) ++ StdHeap.c (pq_ s') ≡ₚ StdHeap.c (pq_ s) ∧
    StronglySorted (λ a b, (getPriority a ≤ getPriority b)%Z) called ∧
    (∀ task other, task ∈ called → Some other ∈ StdHeap.c (pq_ s') →
       (getPriority task ≤ getPriority other)%Z) ∧
    execute_in_order called w = (called, [], w', c) ∧
    (∀ u, c = Returns u → s' = PriorityStrategy_new) ∧
    Forall is_Some (StdHeap.c (pq_ s')).
Proof.
  induction n as [|n IH]; intros s extra w Hwf Hlen;
    pose proof (priority_getNextTask_wf alg laws spares s Hwf) as Hget.
  - destruct s as [[l]]. simpl in *. destruct l; [|done].
    exists [], PriorityStrategy_new, w, (Returns ()).
    repeat split; first [done | constructor | by intros ?? ?%elem_of_nil].
  - destruct (StdHeap.c (pq_ s)) as [|p l] eqn:Hc; [done|].
    destruct Hget as (task & s' & Hcall & Hin & Hleast & Hperm & Hwf').
    change (S (S n) + extra) with (S (S n + extra)). simpl. rewrite Hcall.
    destruct (execute task w) as [w1|what w1] eqn:Hex.
    + destruct (IH s' extra w1 Hwf')
        as (called & s'' & w' & c & Hrun & Hperm' & Hsorted & Hbelow & Hexec & Hend & Hnn).
      { apply Permutation_length in Hperm. simpl in *. lia. }
      assert (∀ other, other ∈ called → (getPriority task ≤ getPriority other)%Z) as Hfirst.
      { intros other Hother. apply Hleast. rewrite Hperm. right. rewrite <- Hperm'.
        apply elem_of_app. left. by apply list_elem_of_fmap_2. }
      exists (task :: called), s'', w', c. simpl in Hrun. rewrite Hrun. simpl.
      split; [done|]. split; [by rewrite Hperm, <- Hperm'|].
      split; [constructor; [done | by apply Forall_forall]|].
      split; [|split; [by rewrite Hex, Hexec | done]].
      intros t other [->|Ht]%elem_of_cons Hother; [|by apply Hbelow].
      apply Hleast. rewrite Hperm. right. rewrite <- Hperm'.
      apply elem_of_app. by right.
    + exists [task], s', w1, (Escapes what). simpl.
      split; [done|]. split; [by rewrite Hperm|].
      split; [repeat constructor|].
      split; [|split; [by rewrite Hex | split; [done | apply Hwf']]].
      intros t other ->%list_elem_of_singleton Hother.
      apply Hleast. rewrite Hperm. by right.
Qed.
End PriorityRun.

(** ** What the two demonstrations of [main] print *)

Example main_fifo_prints (extra : nat) :
  TaskScheduler.main_fifo (4 + extra)
  = Some ["FIFO Schedule:"; "Executing: First"; "Executing: Second"; "Executing: Third"].
Proof. reflexivity. Qed.

Example main_priority_prints (extra : nat) :
  TaskScheduler.main_priority TaskScheduler.sorted_heap (4 + extra)
  = Some [""; "Priority Schedule:"; "[P1]Urgent"; "[P2]Medium"; "[P3]Low"].
Proof. reflexivity. Qed.

(* ===================================================================== *)
(** * Further properties                                                  *)
(* ===================================================================== *)

(** ** When the lock-free caller gets through *)

Section LockFreeLiveness.
Variable table : TransitionTable.

Lemma successes_cons ok oks :
  successes (ok :: oks) = (if ok then 1 else 0) + successes oks.
Proof. unfold successes. by destruct ok. Qed.

Lemma lockfree_handleEvent_on_attempts weak : ∀ event m,
  match LockFreeStateMachine.handleEvent_on table weak event m with
  | Some (ok, m', weak') =>
      (SyncStateMachine.handleEvent_on table event
         {| SyncStateMachine.currentState := LockFreeStateMachine.currentState m |}).1
      = (ok, {| SyncStateMachine.currentState := LockFreeStateMachine.currentState m' |}) ∧
      LockFreeStateMachine.strong_attempts weak
      = (if ok then 1 else 0) + LockFreeStateMachine.strong_attempts weak'
  | None =>
      LockFreeStateMachine.strong_attempts weak = 0 ∧
      (SyncStateMachine.handleEvent_on table event
         {| SyncStateMachine.currentState := LockFreeStateMachine.currentState m |}).1.1
      = true
  end.
Proof.
  induction weak as [|spurious weak IH]; intros event m;
    rewrite handleEvent_on_eq; unfold LockFreeStateMachine.load,
      SyncStateMachine.handleEvent_on; simpl;
    destruct (table !! (LockFreeStateMachine.currentState m, event)) as [desired|] eqn:Hrule;
    try done.
  unfold LockFreeStateMachine.compare_exchange_weak.
  rewrite bool_decide_eq_true_2 by done. rewrite strong_attempts_cons.
  destruct spurious; simpl; [|done].
  specialize (IH event m). unfold SyncStateMachine.handleEvent_on in IH. simpl in IH.
  by rewrite Hrule in IH.
Qed.

Lemma lockfree_run_on_attempts events : ∀ weak s,
  match LockFreeStateMachine.run_on table weak events
          {| LockFreeStateMachine.currentState := s |} with
  | Some (oks, m, weak') =>
      (SyncStateMachine.run_on table events {| SyncStateMachine.currentState := s |}).1
      = (oks, {| SyncStateMachine.currentState := LockFreeStateMachine.currentState m |}) ∧
      LockFreeStateMachine.strong_attempts weak
      = successes oks + LockFreeStateMachine.strong_attempts weak'
  | None =>
      LockFreeStateMachine.strong_attempts weak
      < successes (SyncStateMachine.run_on table events
                     {| SyncStateMachine.currentState := s |}).1.1
  end.
Proof.
  induction events as [|event events IH]; intros weak s; simpl; [done|].
  pose proof (lockfree_handleEvent_on_attempts weak event
                {| LockFreeStateMachine.currentState := s |}) as Hcall.
  simpl in Hcall.
  destruct (LockFreeStateMachine.handleEvent_on table weak event _)
    as [[[ok [s1]] weak1]|]; simpl.
  - destruct Hcall as [Hsync Hweak]. specialize (IH weak1 s1).
    destruct (SyncStateMachine.handleEvent_on table event _) as [[ok' m1'] out1].
    simpl in Hsync. injection Hsync as -> ->.
    destruct (SyncStateMachine.run_on table events _) as [[oks' m2'] out2].
    destruct (LockFreeStateMachine.run_on table weak1 events _) as [[[oks m2] weak2]|]; simpl in *.
    + destruct IH as [[= -> ->] Hweak2]. split; [done|].
      rewrite successes_cons. lia.
    + rewrite successes_cons. lia.
  - destruct Hcall as [Hweak Hok].
    destruct (SyncStateMachine.handleEvent_on table event _) as [[ok' m1'] out1].
    simpl in Hok. subst ok'.
    destruct (SyncStateMachine.run_on table events m1') as [[oks' m2'] out2]. simpl.
    rewrite successes_cons. lia.
Qed.
End LockFreeLiveness.

(** X1.  One caller of the lock-free machine, any weak failures: when the
    calls return, they return what the locked machine returns and end in
    its state, and each accepted event has used up exactly one attempt that
    did not fail spuriously, a refused event none; and the calls fail to
    return only when such attempts are fewer than the events the locked
    machine accepts.  The loop has no bound of its own. *)
Theorem lockfree_run_attempts (s : State) (events : list Event) (weak : list bool) :
  match LockFreeStateMachine.run weak events {| LockFreeStateMachine.currentState := s |} with
  | Some (oks, m, weak') =>
      (SyncStateMachine.run events {| SyncStateMachine.currentState := s |}).1
      = (oks, {| SyncStateMachine.currentState := LockFreeStateMachine.currentState m |}) ∧
      LockFreeStateMachine.strong_attempts weak
      = successes oks + LockFreeStateMachine.strong_attempts weak'
  | None =>
      LockFreeStateMachine.strong_attempts weak
      < successes (SyncStateMachine.run events
                     {| SyncStateMachine.currentState := s |}).1.1
  end.
Proof.
  unfold LockFreeStateMachine.run, SyncStateMachine.run.
  apply lockfree_run_on_attempts.
Qed.

(** ** Events that are accepted once only *)

Lemma accepted_cons event e events ok oks :
  accepted event (e :: events) (ok :: oks)
  = (if decide ((e, ok) = (event, true)) then 1 else 0) + accepted event events oks.
Proof.
  unfold accepted. simpl. rewrite filter_cons. by case_decide.
Qed.

Lemma sync_run_cons event events s :
  SyncStateMachine.run (event :: events) {| SyncStateMachine.currentState := s |}
  = match transitionRules !! (s, event) with
    | Some next =>
        let '(oks, m, out) :=
          SyncStateMachine.run events {| SyncStateMachine.currentState := next |} in
        (true :: oks, m,
         ("Come in next status [" ++ state_name s ++ "] -> [" ++ state_name next ++ "]")%string
           :: out)
    | None =>
        let '(oks, m, out) :=
          SyncStateMachine.run events {| SyncStateMachine.currentState := s |} in
        (false :: oks, m, out)
    end.
Proof.
  unfold SyncStateMachine.run. simpl. unfold SyncStateMachine.handleEvent_on. simpl.
  destruct (transitionRules !! (s, event)); by destruct (SyncStateMachine.run_on _ _ _) as [[??]?].
Qed.

Lemma accepted_Start_Stop events : ∀ s,
  let oks := (SyncStateMachine.run events {| SyncStateMachine.currentState := s |}).1.1 in
  accepted Start events oks ≤ (if decide (s = Idle) then 1 else 0) ∧
  accepted Stop events oks ≤ (if decide (s = Stopped) then 0 else 1).
Proof.
  induction events as [|event events IH]; intros s.
  - unfold accepted. simpl. split; case_decide; lia.
  - cbv zeta. rewrite sync_run_cons, transitionRules_find.
    destruct s, event; simpl;
      match goal with
      | |- context [SyncStateMachine.run events ?m] =>
          let H := fresh in
          pose proof (IH (SyncStateMachine.currentState m)) as H; simpl in H;
          destruct (SyncStateMachine.run events m) as [[oks m'] out]; simpl in *;
          rewrite !accepted_cons; simpl; lia
      end.
Qed.

(** X8.  In the life of a [SyncStateMachine], whatever events are called
    and in whatever order, Start is accepted at most once and Stop is
    accepted at most once: after the one the machine never is in [Idle]
    again, after the other it stays in [Stopped]. *)
Theorem Start_and_Stop_accepted_once (events : list Event) :
  let oks := (SyncStateMachine.run events SyncStateMachine.new).1.1 in
  accepted Start events oks ≤ 1 ∧ accepted Stop events oks ≤ 1.
Proof.
  intros oks. subst oks. unfold SyncStateMachine.new.
  exact (accepted_Start_Stop events Idle).
Qed.

(** ** SyncStateMachine_Callback over many calls *)

Section CallbackRuns.
Variable table : TransitionTable.

(** With any callback or none, a run of the machine with callback goes as
    that of the plain locked machine over the events it gets to: the calls
    return what the calls of the plain machine return, but for a last one
    that the callback's exception ends, which the plain machine returns
    true from; the state at the end is that of the plain machine; and the
    callback is kept. *)
Lemma callback_run_on_sync {World : Type}
    (callback : option (SyncStateMachine_Callback.TransitionCallback World)) events :
  ∀ s (w : World),
    let r := SyncStateMachine_Callback.run_on table events
               {| SyncStateMachine_Callback.currentState := s;
                  SyncStateMachine_Callback.onStateChanged := callback |} w in
    ∃ called rest,
      events = called ++ rest ∧
      let r' := SyncStateMachine.run_on table called
                  {| SyncStateMachine.currentState := s |} in
      (r.1.1 = Returns <$> r'.1.1 ∧ rest = [] ∨
       ∃ oks what, r'.1.1 = oks ++ [true] ∧ r.1.1 = (Returns <$> oks) ++ [Escapes what]) ∧
      r.1.2 = {| SyncStateMachine_Callback.currentState :=
                   SyncStateMachine.currentState r'.1.2;
                 SyncStateMachine_Callback.onStateChanged := callback |}.
Proof.
  induction events as [|event events IH]; intros s w.
  { exists [], []. simpl. split; [done|]. split; [by left | done]. }
  assert (∀ next ok w1,
    SyncStateMachine.handleEvent_on table event {| SyncStateMachine.currentState := s |}
      = (ok, {| SyncStateMachine.currentState := next |},
         (SyncStateMachine.handleEvent_on table event
            {| SyncStateMachine.currentState := s |}).2) →
    SyncStateMachine_Callback.handleEvent_on table event
      {| SyncStateMachine_Callback.currentState := s;
         SyncStateMachine_Callback.onStateChanged := callback |} w
    = (Returns ok,
       {| SyncStateMachine_Callback.currentState := next;
          SyncStateMachine_Callback.onStateChanged := callback |}, w1) →
    let r := SyncStateMachine_Callback.run_on table (event :: events)
               {| SyncStateMachine_Callback.currentState := s;
                  SyncStateMachine_Callback.onStateChanged := callback |} w in
    ∃ called rest,
      event :: events = called ++ rest ∧
      let r' := SyncStateMachine.run_on table called
                  {| SyncStateMachine.currentState := s |} in
      (r.1.1 = Returns <$> r'.1.1 ∧ rest = [] ∨
       ∃ oks what, r'.1.1 = oks ++ [true] ∧ r.1.1 = (Returns <$> oks) ++ [Escapes what]) ∧
      r.1.2 = {| SyncStateMachine_Callback.currentState :=
                   SyncStateMachine.currentState r'.1.2;
                 SyncStateMachine_Callback.onStateChanged := callback |}) as Hgoes.
  { intros next ok w1 Hsync Hcall. simpl. rewrite Hcall.
    destruct (IH next w1) as (called & rest & -> & Hcs & Hm). cbv zeta in Hcs, Hm.
    exists (event :: called), rest. split; [done|]. simpl. rewrite Hsync.
    destruct (SyncStateMachine_Callback.run_on table (called ++ rest) _ w1) as [[cs m2] w2].
    destruct (SyncStateMachine.run_on table called _) as [[oks m2'] out2].
    simpl in *. split; [|done].
    destruct Hcs as [[-> ->]|(oks' & what & -> & ->)]; [by left|].
    right. by exists (ok :: oks'), what. }
  unfold SyncStateMachine_Callback.handleEvent_on, SyncStateMachine.handleEvent_on in Hgoes.
  simpl in Hgoes.
  destruct (table !! (s, event)) as [next|] eqn:Hrule; [|by apply (Hgoes s false w)].
  destruct callback as [f|]; [|by apply (Hgoes next true w)].
  simpl in Hgoes.
  destruct (f s event next w) as [w1|what w1] eqn:Hf; [by apply (Hgoes next true w1)|].
  exists [event], events. split; [done|].
  simpl. unfold SyncStateMachine_Callback.handleEvent_on, SyncStateMachine.handleEvent_on.
  simpl. rewrite Hrule. simpl. rewrite Hf. simpl.
  split; [|done]. right. by exists [], what.
Qed.

(** What the recording callback has been given is a walk through the
    table, from the state the run started in to the state it ended in. *)
Lemma callback_run_on_record events : ∀ s log,
  let r := SyncStateMachine_Callback.run_on table events
             {| SyncStateMachine_Callback.currentState := s;
                SyncStateMachine_Callback.onStateChanged := Some record_transition |}
             log in
  ∃ steps,
    r.2 = log ++ steps ∧
    walk_on table s steps (SyncStateMachine_Callback.currentState r.1.2) ∧
    length steps = successes (returned_true <$> r.1.1).
Proof.
  induction events as [|event events IH]; intros s log.
  - exists []. simpl. rewrite app_nil_r. repeat split. constructor.
  - simpl. unfold SyncStateMachine_Callback.handleEvent_on. simpl.
    destruct (table !! (s, event)) as [next|] eqn:Hrule; simpl.
    + destruct (IH next (log ++ [(s, event, next)])) as (steps & Hlog & Hwalk & Hlen).
      destruct (SyncStateMachine_Callback.run_on table events _ _) as [[cs m2] w2].
      simpl in *. exists ((s, event, next) :: steps). split; [|split].
      * rewrite Hlog. by rewrite <- app_assoc.
      * by econstructor.
      * change (length ((s, event, next) :: steps)
                = successes (true :: (returned_true <$> cs))).
        rewrite successes_cons. simpl. by rewrite Hlen.
    + destruct (IH s log) as (steps & Hlog & Hwalk & Hlen).
      destruct (SyncStateMachine_Callback.run_on table events _ _) as [[cs m2] w2].
      simpl in *. exists steps. split; [done|]. split; [done|].
      change (length steps = successes (false :: (returned_true <$> cs))).
      by rewrite successes_cons.
Qed.

(** Whatever the callback does, it is called along a walk through the
    table: once for each step, in order, with the step as arguments; the
    steps are those of the calls that returned true and, last, that of a
    call the callback's exception ended. *)
Lemma callback_run_on_walk {World : Type}
    (f : SyncStateMachine_Callback.TransitionCallback World) events : ∀ s (w : World),
  let r := SyncStateMachine_Callback.run_on table events
             {| SyncStateMachine_Callback.currentState := s;
                SyncStateMachine_Callback.onStateChanged := Some f |} w in
  ∃ steps,
    walk_on table s steps (SyncStateMachine_Callback.currentState r.1.2) ∧
    r.2 = notify_along f steps w ∧
    length steps
    = successes (returned_true <$> r.1.1) + successes (escaped <$> r.1.1).
Proof.
  induction events as [|event events IH]; intros s w.
  - exists []. repeat split. constructor.
  - simpl. unfold SyncStateMachine_Callback.handleEvent_on. simpl.
    destruct (table !! (s, event)) as [next|] eqn:Hrule; simpl.
    + destruct (f s event next w) as [w1|what w1] eqn:Hf.
      * destruct (IH next w1) as (steps & Hwalk & Hw & Hlen).
        destruct (SyncStateMachine_Callback.run_on table events _ _) as [[cs m2] w2].
        simpl in *. exists ((s, event, next) :: steps). split; [by econstructor|].
        split; [unfold notify_along in *; simpl; by rewrite Hf|].
        change (length ((s, event, next) :: steps)
                = successes (true :: (returned_true <$> cs))
                  + successes (false :: (escaped <$> cs))).
        rewrite !successes_cons. simpl. by rewrite Hlen.
      * exists [(s, event, next)]. simpl. split; [repeat econstructor; done|].
        split; [unfold notify_along; simpl; by rewrite Hf | done].
    + destruct (IH s w) as (steps & Hwalk & Hw & Hlen).
      destruct (SyncStateMachine_Callback.run_on table events _ _) as [[cs m2] w2].
      simpl in *. exists steps. split; [done|]. split; [done|].
      change (length steps = successes (false :: (returned_true <$> cs))
                             + successes (false :: (escaped <$> cs))).
      by rewrite !successes_cons.
Qed.

(** A run never ends in an exception of the machine's own. *)
Lemma callback_run_on_no_throw {World : Type}
    (callback : option (SyncStateMachine_Callback.TransitionCallback World)) events :
  ∀ s (w : World) what,
    Throws what ∉ (SyncStateMachine_Callback.run_on table events
                     {| SyncStateMachine_Callback.currentState := s;
                        SyncStateMachine_Callback.onStateChanged := callback |} w).1.1.
Proof.
  induction events as [|event events IH]; intros s w what; simpl; [by intros ?%elem_of_nil|].
  unfold SyncStateMachine_Callback.handleEvent_on. simpl.
  assert (∀ ok next w1,
    Throws what ∉
      (let '(cs, m2, w2) :=
         SyncStateMachine_Callback.run_on table events
           {| SyncStateMachine_Callback.currentState := next;
              SyncStateMachine_Callback.onStateChanged := callback |} w1 in
       (Returns ok :: cs, m2, w2)).1.1) as Hgoes.
  { intros ok next w1. specialize (IH next w1 what).
    destruct (SyncStateMachine_Callback.run_on table events _ w1) as [[cs m2] w2].
    simpl in *. by intros [?|?]%elem_of_cons. }
  destruct (table !! (s, event)) as [next|]; [|apply Hgoes].
  destruct callback as [f|]; simpl; [|apply Hgoes].
  destruct (f s event next w) as [w1|what' w1]; [apply Hgoes|].
  simpl. by intros [?|?%elem_of_nil]%elem_of_cons.
Qed.

(** An exception that ends a run is one the callback has thrown. *)
Lemma callback_run_on_escapes {World : Type}
    (callback : option (SyncStateMachine_Callback.TransitionCallback World)) events :
  ∀ s (w : World) what,
    Escapes what ∈ (SyncStateMachine_Callback.run_on table events
                      {| SyncStateMachine_Callback.currentState := s;
                         SyncStateMachine_Callback.onStateChanged := callback |} w).1.1 →
    ∃ f old event new w0 w1, callback = Some f ∧ f old event new w0 = Raised what w1.
Proof.
  induction events as [|event events IH]; intros s w what; simpl; [by intros ?%elem_of_nil|].
  unfold SyncStateMachine_Callback.handleEvent_on. simpl.
  assert (∀ ok next w1,
    Escapes what ∈
      (let '(cs, m2, w2) :=
         SyncStateMachine_Callback.run_on table events
           {| SyncStateMachine_Callback.currentState := next;
              SyncStateMachine_Callback.onStateChanged := callback |} w1 in
       (Returns ok :: cs, m2, w2)).1.1 →
    ∃ f old event new w0 w1, callback = Some f ∧ f old event new w0 = Raised what w1)
    as Hgoes.
  { intros ok next w1. specialize (IH next w1 what).
    destruct (SyncStateMachine_Callback.run_on table events _ w1) as [[cs m2] w2].
    simpl in *. intros [?|?]%elem_of_cons; [done|by apply IH]. }
  destruct (table !! (s, event)) as [next|]; [|apply Hgoes].
  destruct callback as [f|]; simpl; [|apply Hgoes].
  destruct (f s event next w) as [w1|what' w1] eqn:Hf; [apply Hgoes|].
  simpl. intros [[= ->]|?%elem_of_nil]%elem_of_cons; [|done].
  by exists f, s, event, next, w, w1.
Qed.
End CallbackRuns.

(** X9.  Register a callback, which may throw, on a new
    [SyncStateMachine_Callback] and call [handleEvent] any number of times,
    up to a call that ends in an exception: the callback is called once in
    each call that returned true and once in the call that its exception
    ended, and never otherwise, in the order of the calls, and the triples
    it is given are the steps of a walk through the table that starts in
    [Idle] and ends in the state the machine is in, the last call having
    made its transition also when the callback threw.  In particular a
    callback that records its arguments, and never throws, ends with that
    walk as its record. *)
Theorem callback_called_along_walk (events : list Event) :
  (∀ World (f : SyncStateMachine_Callback.TransitionCallback World) (w : World),
     let r := SyncStateMachine_Callback.run events
                (SyncStateMachine_Callback.setCallback (Some f)
                   SyncStateMachine_Callback.new) w in
     ∃ steps,
       walk_on transitionRules Idle steps (SyncStateMachine_Callback.currentState r.1.2) ∧
       r.2 = notify_along f steps w ∧
       length steps
       = successes (returned_true <$> r.1.1) + successes (escaped <$> r.1.1)) ∧
  let r := SyncStateMachine_Callback.run events
             (SyncStateMachine_Callback.setCallback (Some record_transition)
                SyncStateMachine_Callback.new) [] in
  walk_on transitionRules Idle r.2 (SyncStateMachine_Callback.currentState r.1.2) ∧
  length r.2 = successes (returned_true <$> r.1.1).
Proof.
  split.
  - intros World f w. apply (callback_run_on_walk transitionRules f events Idle w).
  - intros r.
    destruct (callback_run_on_record transitionRules events Idle [])
      as (steps & Hlog & Hwalk & Hlen).
    fold (SyncStateMachine_Callback.run (World := list (State * Event * State))) in *.
    change (r.2 = steps) in Hlog. by rewrite Hlog.
Qed.

(** X10.  Over any sequence of calls, with any callback registered or
    none, [SyncStateMachine_Callback] never throws [std::bad_function_call];
    it returns what [SyncStateMachine] returns call by call, up to the first
    call in which the callback throws: that call, from which
    [SyncStateMachine] returns true, is ended by the callback's exception
    with its transition made, and the calls after it are not made.  The
    machine ends in the state [SyncStateMachine] is in after the calls
    made, and still has the callback it was given.  With a callback that
    never throws, or none, all the calls are made and return what those of
    [SyncStateMachine] return. *)
Theorem callback_run_same_as_sync {World : Type}
    (callback : option (SyncStateMachine_Callback.TransitionCallback World))
    (events : list Event) (s : State) (w : World) :
  let r := SyncStateMachine_Callback.run events
             {| SyncStateMachine_Callback.currentState := s;
                SyncStateMachine_Callback.onStateChanged := callback |} w in
  (∀ what, Throws what ∉ r.1.1) ∧
  SyncStateMachine_Callback.onStateChanged r.1.2 = callback ∧
  (∃ called rest,
     events = called ++ rest ∧
     let r' := SyncStateMachine.run called {| SyncStateMachine.currentState := s |} in
     (r.1.1 = Returns <$> r'.1.1 ∧ rest = [] ∨
      ∃ oks what, r'.1.1 = oks ++ [true] ∧ r.1.1 = (Returns <$> oks) ++ [Escapes what]) ∧
     SyncStateMachine_Callback.currentState r.1.2 = SyncStateMachine.currentState r'.1.2) ∧
  ((∀ f old event new w0, callback = Some f → ∃ w1, f old event new w0 = Finished w1) →
   let r' := SyncStateMachine.run events {| SyncStateMachine.currentState := s |} in
   r.1.1 = Returns <$> r'.1.1 ∧
   SyncStateMachine_Callback.currentState r.1.2 = SyncStateMachine.currentState r'.1.2).
Proof.
  intros r. subst r.
  unfold SyncStateMachine_Callback.run, SyncStateMachine.run.
  destruct (callback_run_on_sync transitionRules callback events s w)
    as (called & rest & Hevents & Hcs & Hm).
  cbv zeta in Hcs, Hm.
  split; [intros what; apply callback_run_on_no_throw|].
  split; [by rewrite Hm|].
  split; [exists called, rest; by rewrite Hm|].
  intros Hfin.
  destruct Hcs as [[Hcs ->]|(oks & what & _ & Hcs)].
  - rewrite app_nil_r in Hevents. subst called. by rewrite Hm.
  - destruct (callback_run_on_escapes transitionRules callback events s w what)
      as (f & old & event & new & w0 & w1 & Hcb & Hraised).
    { rewrite Hcs. apply elem_of_app. right. by left. }
    destruct (Hfin f old event new w0 Hcb) as [w2 Hw2]. congruence.
Qed.

(** ** Tables built from rules with different keys *)

Lemma list_to_map_first_rule (rules : list TransitionRule) (k : Key) :
  (list_to_map rules : TransitionTable) !! k = first_rule rules k.
Proof.
  induction rules as [|rule rules IH]; simpl; [apply lookup_empty|].
  rewrite lookup_insert. case_decide; [done | apply IH].
Qed.

Lemma map_of_initializer_list_list_to_map (rules : list TransitionRule) :
  map_of_initializer_list rules = list_to_map rules.
Proof.
  apply map_eq. intros k.
  by rewrite map_of_initializer_list_lookup, list_to_map_first_rule.
Qed.

(** X11.  When no two rules of a list have the same key, the table the
    constructor builds holds those rules and no other, as many as were
    listed, and it is the same table in whatever order the rules are
    listed. *)
Theorem table_of_distinct_rules (rules : list TransitionRule) :
  NoDup rules.*1 →
  map_to_list (map_of_initializer_list rules) ≡ₚ rules ∧
  size (map_of_initializer_list rules) = length rules ∧
  (∀ rule, rule ∈ rules → map_of_initializer_list rules !! rule.1 = Some rule.2) ∧
  (∀ rules', rules' ≡ₚ rules →
     map_of_initializer_list rules' = map_of_initializer_list rules).
Proof.
  intros Hdistinct. rewrite map_of_initializer_list_list_to_map.
  split; [|split; [|split]].
  - by apply map_to_list_to_map.
  - by apply map_size_list_to_map.
  - intros [k v] Hin. by apply elem_of_list_to_map_1.
  - intros rules' Hperm. rewrite map_of_initializer_list_list_to_map.
    apply list_to_map_proper; [|done]. by rewrite Hperm.
Qed.

(** X11 at work: the five rules of the source. *)
Lemma table_of_distinct_rules_witness :
  map_to_list transitionRules ≡ₚ transitionRules_init ∧
  size transitionRules = length transitionRules_init ∧
  (∀ rule, rule ∈ transitionRules_init → transitionRules !! rule.1 = Some rule.2) ∧
  (∀ rules', rules' ≡ₚ transitionRules_init →
     map_of_initializer_list rules' = transitionRules).
Proof.
  apply (table_of_distinct_rules transitionRules_init).
  apply (bool_decide_unpack _). vm_compute. exact I.
Defined.

(** ** A thread of the lock-free machine left alone *)

Section SoloProgress.
Variable table : TransitionTable.
#[local] Arguments LockFreeStateMachine.exec_on : simpl never.

(** The config in which thread [i] has returned from its call of [event]
    with what the locked machine gives in state [s]. *)
Lemma lockfree_solo_from_load m threads i event rest returned :
  threads !! i = Some {| LockFreeStateMachine.todo := event :: rest;
                         LockFreeStateMachine.pc := LockFreeStateMachine.AtLoad;
                         LockFreeStateMachine.results := returned |} →
  ∃ n, n ≤ 2 ∧
    LockFreeStateMachine.exec_on table (replicate n (i, false)) (m, threads)
    = let '(ok, m', _) :=
        SyncStateMachine.handleEvent_on table event
          {| SyncStateMachine.currentState := LockFreeStateMachine.currentState m |} in
      ({| LockFreeStateMachine.currentState := SyncStateMachine.currentState m' |},
       <[i := {| LockFreeStateMachine.todo := rest;
                 LockFreeStateMachine.pc := LockFreeStateMachine.AtLoad;
                 LockFreeStateMachine.results := returned ++ [ok] |}]> threads).
Proof.
  intros Hth. unfold SyncStateMachine.handleEvent_on. simpl.
  destruct (table !! (LockFreeStateMachine.currentState m, event)) as [desired|] eqn:Hrule.
  - exists 2. split; [lia|]. simpl.
    rewrite lockfree_exec_on_cons, (lockfree_sched_step_on_at _ _ _ _ _ _ Hth).
    unfold LockFreeStateMachine.thread_step_on at 1, LockFreeStateMachine.load. simpl.
    rewrite Hrule, lockfree_exec_on_cons.
    erewrite lockfree_sched_step_on_at
      by (apply list_lookup_insert_eq; by eapply lookup_lt_Some).
    unfold LockFreeStateMachine.thread_step_on, LockFreeStateMachine.compare_exchange_weak.
    simpl. rewrite bool_decide_eq_true_2 by done. simpl.
    by rewrite list_insert_insert_eq.
  - exists 1. split; [lia|]. simpl.
    rewrite lockfree_exec_on_cons, (lockfree_sched_step_on_at _ _ _ _ _ _ Hth).
    unfold LockFreeStateMachine.thread_step_on, LockFreeStateMachine.load. simpl.
    rewrite Hrule. by destruct m.
Qed.

Lemma lockfree_solo c i th event rest :
  Forall (LockFreeStateMachine.thread_ok_on table) c.2 →
  c.2 !! i = Some th → LockFreeStateMachine.todo th = event :: rest →
  ∃ n, n ≤ 3 ∧
    LockFreeStateMachine.exec_on table (replicate n (i, false)) c
    = let '(ok, m', _) :=
        SyncStateMachine.handleEvent_on table event
          {| SyncStateMachine.currentState := LockFreeStateMachine.currentState c.1 |} in
      ({| LockFreeStateMachine.currentState := SyncStateMachine.currentState m' |},
       <[i := {| LockFreeStateMachine.todo := rest;
                 LockFreeStateMachine.pc := LockFreeStateMachine.AtLoad;
                 LockFreeStateMachine.results :=
                   LockFreeStateMachine.results th ++ [ok] |}]> c.2).
Proof.
  destruct c as [m threads], th as [todo pc returned]. simpl.
  intros Hok Hth ->. destruct pc as [|expected desired].
  - destruct (lockfree_solo_from_load m threads i event rest returned Hth) as (n & Hn & Hexec).
    exists n. split; [lia | done].
  - pose proof (Forall_lookup_1 _ _ _ _ Hok Hth) as Hthok.
    unfold LockFreeStateMachine.thread_ok_on in Hthok. simpl in Hthok.
    destruct (decide (LockFreeStateMachine.currentState m = expected)) as [Heq|Hne].
    + exists 1. split; [lia|]. simpl.
      rewrite lockfree_exec_on_cons, (lockfree_sched_step_on_at _ _ _ _ _ _ Hth).
      unfold LockFreeStateMachine.thread_step_on, LockFreeStateMachine.compare_exchange_weak,
        SyncStateMachine.handleEvent_on.
      simpl. rewrite bool_decide_eq_true_2 by done. simpl.
      by rewrite Heq, Hthok.
    + set (threads1 := <[i := {| LockFreeStateMachine.todo := event :: rest;
                                 LockFreeStateMachine.pc := LockFreeStateMachine.AtLoad;
                                 LockFreeStateMachine.results := returned |}]> threads).
      destruct (lockfree_solo_from_load m threads1 i event rest returned)
        as (n & Hn & Hexec).
      { apply list_lookup_insert_eq. by eapply lookup_lt_Some. }
      exists (S n). split; [lia|]. simpl.
      rewrite lockfree_exec_on_cons, (lockfree_sched_step_on_at _ _ _ _ _ _ Hth).
      unfold LockFreeStateMachine.thread_step_on at 1,
        LockFreeStateMachine.compare_exchange_weak.
      simpl. rewrite bool_decide_eq_false_2 by done. simpl.
      fold threads1. rewrite Hexec.
      destruct (SyncStateMachine.handleEvent_on table event _) as [[ok m'] out].
      unfold threads1. by rewrite list_insert_insert_eq.
Qed.
End SoloProgress.

(** X3.  A thread of the lock-free machine that takes its steps with no
    other thread in between and no weak failure returns from its call
    within three steps, wherever it stands and whatever the other threads
    have done before: it returns what the locked machine returns in the
    state the cell holds, and leaves the cell in the state the locked
    machine would.  A compare-exchange that fails costs it one more
    [load], no more. *)
Theorem lockfree_solo_progress (table : TransitionTable) (programs : list (list Event))
    (before : list (nat * bool)) (i : nat) (th : LockFreeStateMachine.Thread)
    (event : Event) (rest : list Event) :
  let c := LockFreeStateMachine.exec_on table before
             (LockFreeStateMachine.new, LockFreeStateMachine.spawn programs) in
  c.2 !! i = Some th → LockFreeStateMachine.todo th = event :: rest →
  ∃ n, n ≤ 3 ∧
    LockFreeStateMachine.exec_on table (replicate n (i, false)) c
    = let '(ok, m', _) :=
        SyncStateMachine.handleEvent_on table event
          {| SyncStateMachine.currentState := LockFreeStateMachine.currentState c.1 |} in
      ({| LockFreeStateMachine.currentState := SyncStateMachine.currentState m' |},
       <[i := {| LockFreeStateMachine.todo := rest;
                 LockFreeStateMachine.pc := LockFreeStateMachine.AtLoad;
                 LockFreeStateMachine.results :=
                   LockFreeStateMachine.results th ++ [ok] |}]> c.2).
Proof.
  intros c Hth Htodo. apply lockfree_solo; [|done..].
  apply (lockfree_exec_on_ok table before), lockfree_spawn_ok.
Qed.

(** X3 at work: two threads have both loaded [Idle] for Start, the first
    has won; the second, left alone, fails its compare-exchange, loads
    again and is refused. *)
Lemma lockfree_solo_progress_witness :
  let c := LockFreeStateMachine.exec_on transitionRules [(0, false); (1, false); (0, false)]
             (LockFreeStateMachine.new,
              LockFreeStateMachine.spawn [[Start; Pause]; [Start; Stop]]) in
  ∃ n, n ≤ 3 ∧
    LockFreeStateMachine.exec_on transitionRules (replicate n (1, false)) c
    = let '(ok, m', _) :=
        SyncStateMachine.handleEvent_on transitionRules Start
          {| SyncStateMachine.currentState := LockFreeStateMachine.currentState c.1 |} in
      ({| LockFreeStateMachine.currentState := SyncStateMachine.currentState m' |},
       <[1 := {| LockFreeStateMachine.todo := [Stop];
                 LockFreeStateMachine.pc := LockFreeStateMachine.AtLoad;
                 LockFreeStateMachine.results := [] ++ [ok] |}]> c.2).
Proof.
  apply (lockfree_solo_progress transitionRules [[Start; Pause]; [Start; Stop]]
           [(0, false); (1, false); (0, false)] 1
           {| LockFreeStateMachine.todo := [Start; Stop];
              LockFreeStateMachine.pc := LockFreeStateMachine.AtCas Idle Running;
              LockFreeStateMachine.results := [] |} Start [Stop]);
    reflexivity.
Defined.

(** ** [main] of StatusMachine.cpp: which Stop is accepted *)

#[local] Instance stop_accepted_dec th : Decision (stop_accepted th).
Proof. unfold stop_accepted. apply _. Defined.

Lemma stops_accepted_insert threads i th th' :
  threads !! i = Some th →
  stops_accepted (<[i := th']> threads) + (if decide (stop_accepted th) then 1 else 0)
  = stops_accepted threads + (if decide (stop_accepted th') then 1 else 0).
Proof.
  intros Hth. unfold stops_accepted.
  rewrite insert_take_drop by by eapply lookup_lt_Some.
  rewrite <- (take_drop_middle threads i th Hth) at 3.
  rewrite !filter_app, !filter_cons, !length_app.
  repeat case_decide; simpl; first [lia | done].
Qed.

(** A thread running [worker] has returned from the first calls of
    [worker_calls] and has the others to make; and a Stop has been accepted
    exactly when the machine is in [Stopped]. *)
Lemma worker_shape_sched_step i c :
  Forall (λ th, SyncStateMachine.todo th
                = drop (length (SyncStateMachine.results th)) SyncStateMachine.worker_calls)
    c.1.2 →
  stops_accepted c.1.2
  = (if decide (SyncStateMachine.currentState c.1.1 = Stopped) then 1 else 0) →
  let c' := SyncStateMachine.sched_step i c in
  Forall (λ th, SyncStateMachine.todo th
                = drop (length (SyncStateMachine.results th)) SyncStateMachine.worker_calls)
    c'.1.2 ∧
  stops_accepted c'.1.2
  = (if decide (SyncStateMachine.currentState c'.1.1 = Stopped) then 1 else 0).
Proof.
  destruct c as [[[s] threads] out]. simpl. intros Hshape Hcount.
  unfold SyncStateMachine.sched_step, SyncStateMachine.sched_step_on.
  destruct (threads !! i) as [th|] eqn:Hth; [|done].
  pose proof (Forall_lookup_1 _ _ _ _ Hshape Hth) as Hthshape. simpl in Hthshape.
  pose proof (stops_accepted_insert threads i th) as Hins.
  destruct th as [todo returned]. simpl in *. subst todo.
  unfold SyncStateMachine.handleEvent_on, SyncStateMachine.worker_calls.
  destruct returned as [|r0 [|r1 [|r2 [|r3 returned]]]]; simpl;
    [| | | |by rewrite drop_nil];
    rewrite transitionRules_find;
    destruct s; simpl;
    match goal with
    | |- context [<[i := ?th']> threads] =>
        specialize (Hins th' Hth);
        (split; [by apply Forall_insert|]);
        unfold stop_accepted in Hins; simpl in Hins;
        repeat case_decide; simpl in *; first [lia | done]
    end.
Qed.

Lemma worker_shape_exec order : ∀ c,
  Forall (λ th, SyncStateMachine.todo th
                = drop (length (SyncStateMachine.results th)) SyncStateMachine.worker_calls)
    c.1.2 →
  stops_accepted c.1.2
  = (if decide (SyncStateMachine.currentState c.1.1 = Stopped) then 1 else 0) →
  let c' := SyncStateMachine.exec order c in
  stops_accepted c'.1.2
  = (if decide (SyncStateMachine.currentState c'.1.1 = Stopped) then 1 else 0).
Proof.
  induction order as [|i order IH]; intros c Hshape Hcount; [done|].
  destruct (worker_shape_sched_step i c Hshape Hcount) as [Hshape' Hcount'].
  apply (IH (SyncStateMachine.sched_step i c) Hshape' Hcount').
Qed.

Lemma workers_spawned n :
  let threads := SyncStateMachine.spawn (replicate n SyncStateMachine.worker_calls) in
  Forall (λ th, SyncStateMachine.todo th
                = drop (length (SyncStateMachine.results th)) SyncStateMachine.worker_calls)
    threads ∧
  stops_accepted threads = 0 ∧
  Forall (SyncStateMachine.worker_inv Idle) threads.
Proof.
  induction n as [|n (IH1 & IH2 & IH3)]; [by repeat split|].
  split; [|split].
  - by constructor.
  - unfold stops_accepted in *. simpl. by rewrite filter_cons_False.
  - constructor; [by left | done].
Qed.

(** What any number of threads running [worker] on one locked machine
    lead to, whatever the order of their calls. *)
Lemma workers_exec n order :
  let c := SyncStateMachine.exec order
             (SyncStateMachine.new,
              SyncStateMachine.spawn (replicate n SyncStateMachine.worker_calls), []) in
  stops_accepted c.1.2
  = (if decide (SyncStateMachine.currentState c.1.1 = Stopped) then 1 else 0) ∧
  Forall (λ th, SyncStateMachine.todo th = [] →
                SyncStateMachine.currentState c.1.1 = Stopped) c.1.2.
Proof.
  destruct (workers_spawned n) as (Hshape & Hcount & Hinv). split.
  - apply worker_shape_exec; [done|]. simpl. by rewrite Hcount.
  - eapply Forall_impl; [by apply worker_inv_exec|].
    intros th [H|[[_ H]|[H _]]] Hdone; [by rewrite Hdone in H| |done].
    rewrite Hdone, !elem_of_cons, elem_of_nil in H. by destruct H as [?|[?|[?|[]]]].
Qed.

(** X6.  Threads, however many, that each run [worker] on one
    [SyncStateMachine], as the two threads of [main] do: whatever the order
    in which their calls get the mutex, at every moment the Stop of exactly
    one thread has been accepted if the machine is in [Stopped] and of none
    otherwise, and a thread that has returned from its four calls leaves
    the machine in [Stopped].  So when all are joined, one Stop has
    returned true and every other one false. *)
Theorem workers_one_Stop_accepted (n : nat) (order : list nat) :
  let c := SyncStateMachine.exec order
             (SyncStateMachine.new,
              SyncStateMachine.spawn (replicate n SyncStateMachine.worker_calls), []) in
  stops_accepted c.1.2
  = (if decide (SyncStateMachine.currentState c.1.1 = Stopped) then 1 else 0) ∧
  Forall (λ th, SyncStateMachine.todo th = [] →
                SyncStateMachine.currentState c.1.1 = Stopped ∧ stops_accepted c.1.2 = 1)
    c.1.2.
Proof.
  intros c. destruct (workers_exec n order) as [Hcount Hdone]. fold c in Hcount, Hdone.
  split; [done|]. eapply Forall_impl; [exact Hdone|].
  intros th Hth Htodo. specialize (Hth Htodo). split; [done|].
  rewrite Hcount. by rewrite decide_True.
Qed.

Lemma observed_spawn programs :
  observed (LockFreeStateMachine.new, LockFreeStateMachine.spawn programs)
  = (SyncStateMachine.new, SyncStateMachine.spawn programs).
Proof.
  unfold observed, LockFreeStateMachine.spawn, SyncStateMachine.spawn. simpl.
  f_equal. rewrite <- list_fmap_compose. by apply list_fmap_ext.
Qed.

(** X7.  The same threads on one [LockFreeStateMachine]: whatever the
    interleaving of their loads and compare-exchanges and whatever the weak
    failures, at every moment exactly one Stop has returned true if the cell
    holds [Stopped] and none otherwise, and once a thread has returned from
    its four calls the cell holds [Stopped]. *)
Theorem lockfree_workers_one_Stop_accepted (n : nat) (schedule : list (nat * bool)) :
  let c := LockFreeStateMachine.exec schedule
             (LockFreeStateMachine.new,
              LockFreeStateMachine.spawn (replicate n SyncStateMachine.worker_calls)) in
  stops_accepted (observed c).2
  = (if decide (LockFreeStateMachine.currentState c.1 = Stopped) then 1 else 0) ∧
  Forall (λ th, LockFreeStateMachine.todo th = [] →
                LockFreeStateMachine.currentState c.1 = Stopped) c.2.
Proof.
  intros c. subst c. unfold LockFreeStateMachine.exec.
  destruct (lockfree_exec_on_linearizable transitionRules schedule
              (LockFreeStateMachine.new,
               LockFreeStateMachine.spawn (replicate n SyncStateMachine.worker_calls)) [])
    as [order Horder]; [apply lockfree_spawn_ok|].
  rewrite observed_spawn in Horder.
  destruct (workers_exec n order) as [Hcount Hdone].
  unfold SyncStateMachine.exec in Hcount, Hdone. rewrite Horder in Hcount, Hdone.
  split; [exact Hcount|].
  unfold observed in Hdone. simpl in Hdone.
  apply Forall_fmap in Hdone. eapply Forall_impl; [exact Hdone|].
  intros th Hth. exact Hth.
Qed.

(** X4 at work: one thread that calls Start and Stop has got through both
    after four steps; any later pick finds the cell in [Stopped]. *)
Lemma lockfree_Stopped_forever_witness :
  LockFreeStateMachine.currentState
    (LockFreeStateMachine.exec
       ([(0, false); (0, false); (0, false); (0, false)] ++ [(1, true); (1, false)])
       (LockFreeStateMachine.new,
        LockFreeStateMachine.spawn [[Start; Stop]; [Start; Pause]])).1 = Stopped.
Proof.
  apply (lockfree_Stopped_forever [[Start; Stop]; [Start; Pause]]
           [(0, false); (0, false); (0, false); (0, false)] [(1, true); (1, false)]).
  reflexivity.
Defined.

(** ** What SyncStateMachine prints *)

Lemma sync_run_on_lines (table : TransitionTable) events : ∀ s,
  let r := SyncStateMachine.run_on table events {| SyncStateMachine.currentState := s |} in
  ∃ steps,
    walk_on table s steps (SyncStateMachine.currentState r.1.2) ∧
    r.2 = transition_line <$> steps ∧
    length steps = successes r.1.1.
Proof.
  induction events as [|event events IH]; intros s.
  - exists []. repeat split. constructor.
  - simpl. unfold SyncStateMachine.handleEvent_on. simpl.
    destruct (table !! (s, event)) as [next|] eqn:Hrule.
    + destruct (IH next) as (steps & Hwalk & Hout & Hlen).
      destruct (SyncStateMachine.run_on table events _) as [[oks m2] out2]. simpl in *.
      exists ((s, event, next) :: steps). split; [by econstructor|].
      split; [by rewrite Hout|]. rewrite successes_cons. simpl. by rewrite Hlen.
    + destruct (IH s) as (steps & Hwalk & Hout & Hlen).
      destruct (SyncStateMachine.run_on table events _) as [[oks m2] out2]. simpl in *.
      exists steps. by rewrite successes_cons.
Qed.

(** X12.  What [SyncStateMachine] writes to [cout] over any calls is the
    trace of the machine: one line for each call that returned true and
    none for the others, the lines naming, in order, the steps of a walk
    through the table from the state before the calls to the state after
    them.  The index into [strState] is within bounds for every state, and
    different states have different names. *)
Theorem sync_prints_its_walk (events : list Event) (s : State) :
  let r := SyncStateMachine.run events {| SyncStateMachine.currentState := s |} in
  (∃ steps,
     walk_on transitionRules s steps (SyncStateMachine.currentState r.1.2) ∧
     r.2 = transition_line <$> steps ∧
     length steps = successes r.1.1) ∧
  State_to_nat s < length strState ∧
  (∀ s', state_name s = state_name s' → s = s').
Proof.
  intros r. split; [apply sync_run_on_lines|]. split.
  - destruct s; simpl; lia.
  - intros s'. by destruct s, s'.
Qed.

(** ** FifoStrategy under any calls *)

Lemma fifo_calls_order {World : Type} (calls : list (QueueCall World)) :
  ∀ (queued : list (TaskScheduler.Task World)),
    let r := fifo_calls calls {| TaskScheduler.queue_ := Some <$> queued |} in
    ∃ left_over,
      TaskScheduler.queue_ r.2 = Some <$> left_over ∧
      r.1 ++ left_over = queued ++ tasks_added calls.
Proof.
  induction calls as [|[task|] calls IH]; intros queued.
  - exists queued. simpl. by rewrite app_nil_r.
  - simpl. unfold TaskScheduler.FifoStrategy_addTask. simpl.
    destruct (IH (queued ++ [task])) as (left_over & Hq & Horder).
    rewrite fmap_app in Hq, Horder. simpl in *.
    exists left_over. split; [done|]. etrans; [exact Horder|]. by rewrite <- app_assoc.
  - simpl. unfold TaskScheduler.FifoStrategy_getNextTask. simpl.
    destruct queued as [|task queued]; simpl.
    + destruct (IH []) as (left_over & Hq & Horder). simpl in *.
      destruct (fifo_calls calls _) as [handed s'']. by exists left_over.
    + destruct (IH queued) as (left_over & Hq & Horder). simpl in *.
      destruct (fifo_calls calls _) as [handed s'']. simpl in *.
      exists left_over. split; [done|]. simpl. f_equal. exact Horder.
Qed.

(** X13.  Whatever the order in which [addTask] (of non-null tasks) and
    [getNextTask] are called on a new [FifoStrategy], the tasks handed out,
    followed by the tasks still in the queue, are the tasks added, in the
    order added: no task is lost, handed out twice, or overtaken; and a
    [getNextTask] that finds the queue empty changes nothing. *)
Theorem fifo_first_in_first_out {World : Type} (calls : list (QueueCall World)) :
  let r := fifo_calls calls TaskScheduler.FifoStrategy_new in
  ∃ left_over,
    TaskScheduler.queue_ r.2 = Some <$> left_over ∧
    r.1 ++ left_over = tasks_added calls.
Proof.
  intros r. destruct (fifo_calls_order calls []) as (left_over & Hq & Horder).
  exists left_over. split; [exact Hq | exact Horder].
Qed.

(** ** Scheduler::run with a PriorityStrategy, from submission to the end *)

Section PrioritySubmit.
Import TaskScheduler.
Context {World : Type}.
Variable alg : StdHeap.HeapAlgorithms (TaskPtr World).
Hypothesis laws : StdHeap.HeapLaws TaskComparator alg.

Lemma priority_submit_all (tasks : list (Task World)) : ∀ sch,
  PriorityStrategy_wf (strategy_ sch) →
  let sch' := foldl (λ sch p, submit (strategy := PriorityStrategy_strategy alg) p sch)
                sch (Some <$> tasks) in
  PriorityStrategy_wf (strategy_ sch') ∧
  StdHeap.c (pq_ (strategy_ sch')) ≡ₚ StdHeap.c (pq_ (strategy_ sch)) ++ (Some <$> tasks).
Proof.
  induction tasks as [|task tasks IH]; intros sch Hwf.
  - simpl. by rewrite app_nil_r.
  - destruct (priority_addTask_wf alg laws task (strategy_ sch) Hwf) as [Hwf1 Hperm1].
    destruct (IH (submit (strategy := PriorityStrategy_strategy alg) (Some task) sch) Hwf1)
      as [Hwf2 Hperm2].
    split; [exact Hwf2|]. simpl in *. rewrite Hperm2, Hperm1.
    by rewrite <- Permutation_middle.
Qed.

Lemma omap_id_Some {A} (l : list A) : omap id (Some <$> l) = l.
Proof. induction l; simpl; by f_equal. Qed.
End PrioritySubmit.

(** X14.  Take heap algorithms that obey the contract of [push_heap] and
    [pop_heap] and whose [pop_heap] moves the first element of the range to
    the last place without looking at it.  For every finite sequence of
    non-null tasks submitted to a [Scheduler] with a new
    [PriorityStrategy], [run] calls [execute()] of tasks submitted, each at
    most once, in ascending order of [getPriority()] whatever the order of
    submission, until the queue is empty or a call throws.  A call that
    throws ends [run] with its exception; the tasks not called are then
    still in the queue, and none of them has a priority below that of a
    task called.  If every call returns, [run] returns, has executed each
    task once, and leaves the queue empty. *)
Theorem priority_run_in_priority_order {World : Type}
    (alg : StdHeap.HeapAlgorithms (TaskScheduler.TaskPtr World))
    (laws : StdHeap.HeapLaws TaskScheduler.TaskComparator alg)
    (spares : StdHeap.pop_heap_spares_front alg)
    (tasks : list (TaskScheduler.Task World)) (w : World) (extra : nat) :
  ∃ called s' w' c,
    TaskScheduler.run (strategy := TaskScheduler.PriorityStrategy_strategy alg)
      (S (length tasks) + extra)
      (foldl (λ sch p,
                TaskScheduler.submit (strategy := TaskScheduler.PriorityStrategy_strategy alg)
                  p sch)
         {| TaskScheduler.strategy_ := TaskScheduler.PriorityStrategy_new |}
         (Some <$> tasks)) w
    = Some (called, {| TaskScheduler.strategy_ := s' |}, w', c) ∧
    (Some <$> called) ++ StdHeap.c (TaskScheduler.pq_ s') ≡ₚ Some <$> tasks ∧
    StronglySorted
      (λ a b, (TaskScheduler.getPriority a ≤ TaskScheduler.getPriority b)%Z) called ∧
    (∀ task other,
       task ∈ called → Some other ∈ StdHeap.c (TaskScheduler.pq_ s') →
       (TaskScheduler.getPriority task ≤ TaskScheduler.getPriority other)%Z) ∧
    execute_in_order called w = (called, [], w', c) ∧
    match c with
    | Returns _ => s' = TaskScheduler.PriorityStrategy_new ∧ called ≡ₚ tasks
    | Escapes what =>
        ∃ before task w0,
          called = before ++ [task] ∧ TaskScheduler.execute task w0 = Raised what w'
    | Throws _ => False
    end ∧
    ((∀ task w0, task ∈ tasks → ∃ w1, TaskScheduler.execute task w0 = Finished w1) →
     c = Returns () ∧
     w' = foldl (λ w task, world_after (TaskScheduler.execute task w)) w called).
Proof.
  destruct (priority_submit_all alg laws tasks
              {| TaskScheduler.strategy_ := TaskScheduler.PriorityStrategy_new |})
    as [Hwf Hperm].
  { apply (priority_built_wf alg laws spares). constructor. }
  simpl in Hperm.
  set (sch := foldl _ _ _) in *. destruct sch as [s]. simpl in *.
  destruct (priority_run_sorted alg laws spares (length tasks) s extra w Hwf)
    as (called & s' & w' & c & Hrun & Hqueue & Hsorted & Hbelow & Hexec & Hend & _).
  { apply Permutation_length in Hperm. by rewrite Hperm, length_fmap. }
  exists called, s', w', c. rewrite <- Hperm.
  split; [exact Hrun|]. split; [exact Hqueue|]. split; [exact Hsorted|].
  split; [exact Hbelow|]. split; [exact Hexec|].
  pose proof (execute_in_order_split called w) as Hsplit. rewrite Hexec in Hsplit.
  destruct Hsplit as [_ Hc].
  assert (match c with
          | Returns _ => s' = TaskScheduler.PriorityStrategy_new ∧ called ≡ₚ tasks
          | Escapes what =>
              ∃ before task w0,
                called = before ++ [task] ∧ TaskScheduler.execute task w0 = Raised what w'
          | Throws _ => False
          end) as Hc'.
  { destruct c as [u|what|what]; [|done..].
    pose proof (Hend u eq_refl) as ->. split; [done|].
    simpl in Hqueue. rewrite app_nil_r, Hperm in Hqueue.
    rewrite <- (omap_id_Some called), <- (omap_id_Some tasks). by rewrite Hqueue. }
  split; [exact Hc'|].
  intros Hfin.
  assert (∀ task w0, task ∈ called →
            TaskScheduler.execute task w0
            = Finished (world_after (TaskScheduler.execute task w0))) as Hfin'.
  { intros task w0 Hin. destruct (Hfin task w0) as [w1 ->]; [|done].
    assert (Some task ∈ Some <$> tasks) as Hin'.
    { rewrite <- Hperm, <- Hqueue. apply elem_of_app. left. by apply list_elem_of_fmap_2. }
    apply list_elem_of_fmap in Hin' as (task' & [= <-] & Hin'). done. }
  rewrite (execute_in_order_finished called w Hfin') in Hexec.
  by injection Hexec as <- <-.
Qed.

(** X14 at work: the sorting algorithms and the three tasks of [main]. *)
Lemma priority_run_in_priority_order_witness :
  ∃ called s' w' c,
    TaskScheduler.run
      (strategy := TaskScheduler.PriorityStrategy_strategy TaskScheduler.sorted_heap)
      (S (length [TaskScheduler.PriorityTask "Low" 3; TaskScheduler.PriorityTask "Urgent" 1;
                  TaskScheduler.PriorityTask "Medium" 2]) + 0)
      (foldl (λ sch p,
                TaskScheduler.submit
                  (strategy := TaskScheduler.PriorityStrategy_strategy
                                 TaskScheduler.sorted_heap) p sch)
         {| TaskScheduler.strategy_ := TaskScheduler.PriorityStrategy_new |}
         (Some <$> [TaskScheduler.PriorityTask "Low" 3; TaskScheduler.PriorityTask "Urgent" 1;
                    TaskScheduler.PriorityTask "Medium" 2])) [""; "Priority Schedule:"]
    = Some (called, {| TaskScheduler.strategy_ := s' |}, w', c) ∧
    (Some <$> called) ++ StdHeap.c (TaskScheduler.pq_ s')
    ≡ₚ Some <$> [TaskScheduler.PriorityTask "Low" 3; TaskScheduler.PriorityTask "Urgent" 1;
                 TaskScheduler.PriorityTask "Medium" 2] ∧
    StronglySorted
      (λ a b, (TaskScheduler.getPriority a ≤ TaskScheduler.getPriority b)%Z) called ∧
    (∀ task other,
       task ∈ called → Some other ∈ StdHeap.c (TaskScheduler.pq_ s') →
       (TaskScheduler.getPriority task ≤ TaskScheduler.getPriority other)%Z) ∧
    execute_in_order called [""; "Priority Schedule:"] = (called, [], w', c) ∧
    match c with
    | Returns _ =>
        s' = TaskScheduler.PriorityStrategy_new ∧
        called ≡ₚ [TaskScheduler.PriorityTask "Low" 3; TaskScheduler.PriorityTask "Urgent" 1;
                   TaskScheduler.PriorityTask "Medium" 2]
    | Escapes what =>
        ∃ before task w0,
          called = before ++ [task] ∧ TaskScheduler.execute task w0 = Raised what w'
    | Throws _ => False
    end ∧
    ((∀ task w0,
        task ∈ [TaskScheduler.PriorityTask "Low" 3; TaskScheduler.PriorityTask "Urgent" 1;
                TaskScheduler.PriorityTask "Medium" 2] →
        ∃ w1, TaskScheduler.execute task w0 = Finished w1) →
     c = Returns () ∧
     w' = foldl (λ w task, world_after (TaskScheduler.execute task w))
            [""; "Priority Schedule:"] called).
Proof.
  apply (priority_run_in_priority_order TaskScheduler.sorted_heap sorted_heap_laws
           sorted_heap_spares_front
           [TaskScheduler.PriorityTask "Low" 3; TaskScheduler.PriorityTask "Urgent" 1;
            TaskScheduler.PriorityTask "Medium" 2] [""; "Priority Schedule:"] 0).
Defined.

(** ** PriorityStrategy under any calls *)

Section PriorityCalls.
Import TaskScheduler.
Context {World : Type}.
Variable alg : StdHeap.HeapAlgorithms (TaskPtr World).
Hypothesis laws : StdHeap.HeapLaws TaskComparator alg.
Hypothesis spares : StdHeap.pop_heap_spares_front alg.

Lemma priority_calls_keep (calls : list (QueueCall World)) :
  ∀ (s : PriorityStrategy World) (queued : list (Task World)),
    PriorityStrategy_wf s → StdHeap.c (pq_ s) ≡ₚ Some <$> queued →
    let r := priority_calls alg calls s in
    ∃ left_over,
      PriorityStrategy_wf r.2 ∧
      StdHeap.c (pq_ r.2) ≡ₚ Some <$> left_over ∧
      r.1 ++ left_over ≡ₚ queued ++ tasks_added calls.
Proof.
  induction calls as [|[task|] calls IH]; intros s queued Hwf Hq.
  - exists queued. simpl. by rewrite app_nil_r.
  - destruct (priority_addTask_wf alg laws task s Hwf) as [Hwf1 Hperm1].
    destruct (IH (PriorityStrategy_addTask alg (Some task) s) (task :: queued) Hwf1)
      as (left_over & Hwf2 & Hq2 & Hkeep).
    { rewrite Hperm1. simpl. by rewrite Hq. }
    exists left_over. split; [done|]. split; [done|].
    etrans; [exact Hkeep|]. simpl. by rewrite <- Permutation_middle.
  - pose proof (priority_getNextTask_wf alg laws spares s Hwf) as Hget. simpl.
    destruct (StdHeap.c (pq_ s)) as [|p l] eqn:Hc.
    + rewrite Hget.
      destruct (IH s queued Hwf) as (left_over & Hwf2 & Hq2 & Hkeep);
        [by rewrite Hc|].
      destruct (priority_calls alg calls s) as [handed s'']. by exists left_over.
    + destruct Hget as (task & s' & -> & _ & _ & Hperm & Hwf').
      assert (∃ queued', queued ≡ₚ task :: queued' ∧ StdHeap.c (pq_ s') ≡ₚ Some <$> queued')
        as (queued' & Hqueued & Hq').
      { exists (omap id (StdHeap.c (pq_ s'))). split.
        - rewrite <- (omap_id_Some queued), <- Hq, Hperm. done.
        - destruct Hwf' as [_ Hnn]. clear -Hnn.
          induction Hnn as [|p l [t ->] _ IH]; [done|]. simpl. by rewrite <- IH. }
      destruct (IH s' queued' Hwf' Hq') as (left_over & Hwf2 & Hq2 & Hkeep).
      destruct (priority_calls alg calls s') as [handed s'']. simpl in *.
      exists left_over. split; [done|]. split; [done|].
      by rewrite Hkeep, Hqueued.
Qed.
End PriorityCalls.

(** X15.  Take heap algorithms that obey the contract of [push_heap] and
    [pop_heap] and whose [pop_heap] moves the first element of the range to
    the last place without looking at it.  Whatever the order in which
    [addTask] (of non-null tasks) and [getNextTask] are called on a new
    [PriorityStrategy], the tasks handed out together with the tasks still
    in the queue are the tasks added, each as often as it was added: none
    is lost and none is handed out twice. *)
Theorem priority_keeps_its_tasks {World : Type}
    (alg : StdHeap.HeapAlgorithms (TaskScheduler.TaskPtr World))
    (laws : StdHeap.HeapLaws TaskScheduler.TaskComparator alg)
    (spares : StdHeap.pop_heap_spares_front alg)
    (calls : list (QueueCall World)) :
  let r := priority_calls alg calls TaskScheduler.PriorityStrategy_new in
  ∃ left_over,
    StdHeap.c (TaskScheduler.pq_ r.2) ≡ₚ Some <$> left_over ∧
    r.1 ++ left_over ≡ₚ tasks_added calls.
Proof.
  intros r.
  destruct (priority_calls_keep alg laws spares calls TaskScheduler.PriorityStrategy_new [])
    as (left_over & _ & Hq & Hkeep); [|done|].
  - apply (priority_built_wf alg laws spares). constructor.
  - exists left_over. split; [exact Hq | exact Hkeep].
Qed.

(** X15 at work: the sorting algorithms; two tasks added, one taken, one
    more added, two taken, and one more call on the empty queue. *)
Lemma priority_keeps_its_tasks_witness :
  let calls := [AddTask (TaskScheduler.PriorityTask "Low" 3);
                AddTask (TaskScheduler.PriorityTask "Urgent" 1);
                GetNextTask;
                AddTask (TaskScheduler.PriorityTask "Medium" 2);
                GetNextTask; GetNextTask; GetNextTask] in
  let r := priority_calls TaskScheduler.sorted_heap calls TaskScheduler.PriorityStrategy_new in
  ∃ left_over,
    StdHeap.c (TaskScheduler.pq_ r.2) ≡ₚ Some <$> left_over ∧
    r.1 ++ left_over ≡ₚ tasks_added calls.
Proof.
  apply (priority_keeps_its_tasks TaskScheduler.sorted_heap sorted_heap_laws
           sorted_heap_spares_front).
Defined.
